(** * Weighted post length, normalisation and truncation of [twitter_text_utils.py]

    A Python [str] is a sequence of Unicode scalar values; it is modelled
    as [list Z], one code point per element, so that [len], slicing
    [s[:k]] and iteration index code points exactly as Python does. *)

From Stdlib Require Import ZArith List Bool Lia.
Import ListNotations.
Open Scope Z_scope.

Definition text := list Z.

(** ** Character classes used by the module *)

(** [str.isspace] / the [\s] class of [re] on [str] patterns (they agree):
    the characters of bidirectional class WS, B or S, or of category Zs. *)
Definition is_space (c : Z) : bool :=
  ((9 <=? c) && (c <=? 13)) || ((28 <=? c) && (c <=? 32)) || (c =? 133)
  || (c =? 160) || (c =? 5760) || ((8192 <=? c) && (c <=? 8202))
  || (c =? 8232) || (c =? 8233) || (c =? 8239) || (c =? 8287) || (c =? 12288).

(** [TwitterTextValidator.WEIGHT_1_RANGES] *)
Definition WEIGHT_1_RANGES : list (Z * Z) :=
  [(0, 4351); (8192, 8205); (8208, 8223); (8242, 8247)].

(** [get_character_weight] *)
Definition get_character_weight (c : Z) : Z :=
  if existsb (fun r => (fst r <=? c) && (c <=? snd r)) WEIGHT_1_RANGES
  then 1 else 2.

(** ** [URL_PATTERN = re.compile(r'https?://[^\s<>DQ]+')], DQ being the double quote *)

(** The literal parts of the pattern. *)
Definition http_scheme : text := [104; 116; 116; 112; 58; 47; 47].       (* "http://" *)
Definition https_scheme : text := [104; 116; 116; 112; 115; 58; 47; 47]. (* "https://" *)

(** Membership in the class [[^\s<>DQ]] (DQ: the double quote, code 34). *)
Definition url_char (c : Z) : bool :=
  negb (is_space c) && negb (c =? 60) && negb (c =? 62) && negb (c =? 34).

Fixpoint is_prefix (p s : text) : bool :=
  match p, s with
  | [], _ => true
  | x :: p', y :: s' => (x =? y) && is_prefix p' s'
  | _ :: _, [] => false
  end.

(** Greedy [[^\s<>DQ]+]: number of leading characters of the class. *)
Fixpoint url_run (s : text) : nat :=
  match s with
  | c :: s' => if url_char c then S (url_run s') else O
  | [] => O
  end.

(** [https?://]: the optional [s] is tried first (greedy); the two
    alternatives are exclusive since the fifth character decides. *)
Definition scheme_len (s : text) : option nat :=
  if is_prefix https_scheme s then Some 8%nat
  else if is_prefix http_scheme s then Some 7%nat
  else None.

(** [URL_PATTERN.match(s)]: length of the match anchored at the start of
    [s], if any.  After the scheme at least one class character is needed;
    the class run is maximal (greedy, nothing after it to backtrack for). *)
Definition match_at (s : text) : option nat :=
  match scheme_len s with
  | Some k =>
      let r := url_run (skipn k s) in
      if Nat.eqb r 0 then None else Some (k + r)%nat
  | None => None
  end.

(** The scan shared by [URL_PATTERN.findall(text)] and
    [URL_PATTERN.sub('', text)]: try a match at the current position; on a
    match, record it and continue after it, otherwise keep the character
    and advance by one.  Returns the matched URLs and the text with them
    deleted.  The pattern never matches the empty string, so each step
    consumes at least one character and [length s] steps suffice. *)
Fixpoint url_scan (fuel : nat) (s : text) : list text * text :=
  match fuel with
  | O => ([], s)
  | S f =>
      match s with
      | [] => ([], [])
      | c :: s' =>
          match match_at s with
          | Some n => let '(us, rest) := url_scan f (skipn n s) in
                      (firstn n s :: us, rest)
          | None => let '(us, rest) := url_scan f s' in (us, c :: rest)
          end
      end
  end.

Definition findall_urls (s : text) : list text := fst (url_scan (length s) s).
Definition sub_urls (s : text) : text := snd (url_scan (length s) s).

(** ** [calculate_weighted_length] *)

Record length_info := {
  weighted_length : Z;
  url_count : Z;
  weight_1 : Z;   (* char_breakdown['weight_1'] *)
  weight_2 : Z;   (* char_breakdown['weight_2'] *)
  urls : Z        (* char_breakdown['urls'] *)
}.

(** The loop [for char in text_without_urls] with its two counters. *)
Fixpoint count_weights (s : text) (w1 w2 : Z) : Z * Z :=
  match s with
  | [] => (w1, w2)
  | c :: s' =>
      if get_character_weight c =? 1 then count_weights s' (w1 + 1) w2
      else count_weights s' w1 (w2 + 1)
  end.

Definition calculate_weighted_length (s : text) : length_info :=
  match s with
  | [] => {| weighted_length := 0; url_count := 0;
             weight_1 := 0; weight_2 := 0; urls := 0 |}
  | _ =>
      let us := findall_urls s in
      let text_without_urls := sub_urls s in
      let '(w1, w2) := count_weights text_without_urls 0 0 in
      let url_chars := Z.of_nat (length us) * 23 in
      {| weighted_length := w1 + w2 * 2 + url_chars;
         url_count := Z.of_nat (length us);
         weight_1 := w1; weight_2 := w2; urls := url_chars |}
  end.

(** [get_weighted_length] (module-level helper). *)
Definition get_weighted_length (s : text) : Z :=
  weighted_length (calculate_weighted_length s).

Definition repeat_char (c : Z) (n : nat) : text := repeat c n.

(** ** Python string helpers used by the module *)

(** [str.lstrip()], [str.rstrip()], [str.strip()] (whitespace = [is_space]). *)
Fixpoint lstrip (s : text) : text :=
  match s with
  | c :: s' => if is_space c then lstrip s' else s
  | [] => []
  end.

Definition rstrip (s : text) : text := rev (lstrip (rev s)).

Definition strip (s : text) : text := rstrip (lstrip s).

(** [re.sub(r'\s+', ' ', s)]: every maximal run of whitespace becomes one
    space; [in_ws] records that the previous character was whitespace. *)
Fixpoint collapse_go (in_ws : bool) (s : text) : text :=
  match s with
  | [] => []
  | c :: s' =>
      if is_space c then
        if in_ws then collapse_go true s' else 32 :: collapse_go true s'
      else c :: collapse_go false s'
  end.

Definition collapse_ws (s : text) : text := collapse_go false s.

(** [s.split(sep)] for a one-character separator: empty fields are kept. *)
Fixpoint split_on (sep : Z) (s : text) : list text :=
  match s with
  | [] => [[]]
  | c :: s' =>
      if c =? sep then [] :: split_on sep s'
      else match split_on sep s' with
           | w :: ws => (c :: w) :: ws
           | [] => [[c]]
           end
  end.

(** [s.split()] with no argument: maximal runs of non-whitespace;
    [cur] is the current word, reversed. *)
Fixpoint split_ws_go (cur : text) (s : text) : list text :=
  match s with
  | [] => match cur with [] => [] | _ => [rev cur] end
  | c :: s' =>
      if is_space c then
        match cur with
        | [] => split_ws_go [] s'
        | _ => rev cur :: split_ws_go [] s'
        end
      else split_ws_go (c :: cur) s'
  end.

Definition split_ws (s : text) : list text := split_ws_go [] s.

(** [sep.join(ws)] *)
Fixpoint join (sep : text) (ws : list text) : text :=
  match ws with
  | [] => []
  | [w] => w
  | w :: ws' => w ++ sep ++ join sep ws'
  end.

(** ** The Unicode database the module consults

    [unicodedata.normalize('NFC', _)] and the test
    [unicodedata.category(c).startswith('C')] come from Python's copy of the
    Unicode Character Database, not from this repository; the functions
    below take them as a parameter. *)
Record unicode_db := {
  nfc : text -> text;
  category_is_C : Z -> bool
}.

(** [TwitterTextValidator.INVISIBLE_CHARS] *)
Definition INVISIBLE_CHARS : list Z :=
  [8203; 8204; 8206; 8207; 8288; 65279; 8232; 8233; 173].

(** [str.replace(ch, '')] *)
Definition replace_by_empty (ch : Z) (s : text) : text :=
  filter (fun c => negb (c =? ch)) s.

(** Characters that survive [remove_invisible_chars]'s second filter:
    not of category C, or one of [\n \r \t] and the space. *)
Definition keeps_char (u : unicode_db) (c : Z) : bool :=
  negb (category_is_C u c && negb (existsb (Z.eqb c) [10; 13; 9; 32])).

(** The loop [for char in cls.INVISIBLE_CHARS: text = text.replace(char, '')]. *)
Definition drop_invisible_chars (s : text) : text :=
  fold_left (fun t ch => replace_by_empty ch t) INVISIBLE_CHARS s.

(** [remove_invisible_chars] *)
Definition remove_invisible_chars (u : unicode_db) (s : text) : text :=
  match s with
  | [] => s
  | _ =>
      let s1 := drop_invisible_chars s in
      filter (keeps_char u) s1
  end.

(** [normalize_text] *)
Definition normalize_text (u : unicode_db) (s : text) : text :=
  match s with
  | [] => s
  | _ =>
      let s1 := nfc u s in
      let s2 := remove_invisible_chars u s1 in
      strip (collapse_ws s2)
  end.

(** ** [validate_tweet_length] *)

Record validation_result := {
  is_valid : bool;
  normalized_text : text;
  v_weighted_length : Z;
  chars_over : Z;
  max_length : Z;
  v_url_count : Z;
  char_breakdown : Z * Z * Z  (* weight_1, weight_2, urls *)
}.

Definition validate_tweet_length (u : unicode_db) (s : text) (max_len : Z)
  : validation_result :=
  let normalized := normalize_text u s in
  let length_info := calculate_weighted_length normalized in
  {| is_valid := weighted_length length_info <=? max_len;
     normalized_text := normalized;
     v_weighted_length := weighted_length length_info;
     chars_over := Z.max 0 (weighted_length length_info - max_len);
     max_length := max_len;
     v_url_count := url_count length_info;
     char_breakdown := (weight_1 length_info, weight_2 length_info, urls length_info) |}.

(** [is_tweet_too_long] *)
Definition is_tweet_too_long (u : unicode_db) (s : text) (max_len : Z) : bool :=
  negb (is_valid (validate_tweet_length u s max_len)).

(** ** [truncate_to_limit] *)

Record truncation_result := {
  t_text : text;
  was_truncated : bool;
  final_length : Z
}.

(** The default [ellipsis='…'] (U+2026). *)
Definition default_ellipsis : text := [8230].

(** Lines 206-227: detection of a trailing URL, either on a line of its
    own ([text\nURL]) or as the last space-separated word ([text URL]).
    Returns [(main_text, trailing_url, potential_url)]. *)
Definition detect_trailing_url (normalized : text) : option (text * text * text) :=
  let lines := split_on 10 normalized in
  if (2 <=? length lines)%nat then
    let potential_url := strip (last lines []) in
    match match_at potential_url with
    | Some _ => Some (join [10] (removelast lines), 10 :: potential_url, potential_url)
    | None => None
    end
  else
    let words := split_ws normalized in
    if (2 <=? length words)%nat then
      let potential_url := last words [] in
      match match_at potential_url with
      | Some _ => Some (join [32] (removelast words), 32 :: potential_url, potential_url)
      | None => None
      end
    else None.

(** The [while left <= right] binary search for the longest prefix
    [s[:mid]] of weighted length at most [target].  The interval
    [left..right] loses at least one element per round, so [length s + 1]
    rounds bring it to [left > right]. *)
Fixpoint binary_search (fuel : nat) (s : text) (target left right best : Z) : Z :=
  match fuel with
  | O => best
  | S f =>
      if left <=? right then
        let mid := (left + right) / 2 in
        let test_length := get_weighted_length (firstn (Z.to_nat mid) s) in
        if test_length <=? target then binary_search f s target (mid + 1) right mid
        else binary_search f s target left (mid - 1) best
      else best
  end.

Definition best_prefix (s : text) (target : Z) : Z :=
  binary_search (S (length s)) s target 0 (Z.of_nat (length s)) 0.

Definition truncate_to_limit (u : unicode_db) (s : text) (max_len : Z) (ellipsis : text)
  : truncation_result :=
  let normalized := normalize_text u s in
  let validation := validate_tweet_length u normalized max_len in
  if is_valid validation then
    {| t_text := normalized; was_truncated := false;
       final_length := v_weighted_length validation |}
  else
    match detect_trailing_url normalized with
    | Some (main_text, trailing_url, potential_url) =>
        let url_weight := get_weighted_length trailing_url in
        let ellipsis_weight := get_weighted_length ellipsis in
        let available_weight := max_len - url_weight - ellipsis_weight in
        if available_weight <=? 0 then
          {| t_text := potential_url; was_truncated := true;
             final_length := get_weighted_length potential_url |}
        else
          let best_pos := best_prefix main_text available_weight in
          let truncated_main := rstrip (firstn (Z.to_nat best_pos) main_text) in
          let truncated_text :=
            match truncated_main with
            | [] => strip trailing_url
            | _ => truncated_main ++ ellipsis ++ trailing_url
            end in
          {| t_text := truncated_text; was_truncated := true;
             final_length := get_weighted_length truncated_text |}
    | None =>
        let ellipsis_weight := get_weighted_length ellipsis in
        let target_length := max_len - ellipsis_weight in
        let best_pos := best_prefix normalized target_length in
        let truncated_text := rstrip (firstn (Z.to_nat best_pos) normalized) ++ ellipsis in
        {| t_text := truncated_text; was_truncated := true;
           final_length := get_weighted_length truncated_text |}
    end.

(** [safe_truncate_post] *)
Definition safe_truncate_post (u : unicode_db) (s : text) (max_len : Z) : text :=
  t_text (truncate_to_limit u s max_len default_ellipsis).

(** [validate_post_text(text, max_length, debug)]: with [debug] it also
    prints a report; its result is that of [validate_tweet_length]. *)
Definition validate_post_text (u : unicode_db) (s : text) (max_len : Z) : validation_result :=
  validate_tweet_length u s max_len.

(** ** The callers: composing a post from a paragraph and a link

    The block shared by [rss_summary.py] (lines 222-235), [the_batch.py]
    (lines 250-263) and [rundown.py] (lines 204-217):
    [post_text = f"{paragraph}\n{url}"], shortened when it does not
    validate at the default limit 280. *)
Definition compose_post (u : unicode_db) (paragraph url : text) : text :=
  let post_text := paragraph ++ [10] ++ url in
  let validation := validate_post_text u post_text 280 in
  if is_valid validation then post_text
  else
    let url_weight := get_weighted_length (10 :: url) in
    let available_weight := 280 - url_weight in
    if 6 <? available_weight
    then safe_truncate_post u paragraph available_weight ++ [10] ++ url
    else url.

(** [the_batch.py] lines 244-266 and [rundown.py] lines 198-220: for every
    line starting with ["# "], the first later line [l] with [l.strip()]
    non-empty, [not l.startswith('#')] and [not l.startswith('http')]
    gives the paragraph [l.strip()]. *)
Definition is_paragraph_line (line : text) : bool :=
  negb (match strip line with [] => true | _ => false end)
  && negb (is_prefix [35] line) && negb (is_prefix [104; 116; 116; 112] line).

(** The inner loop [for j in range(i + 1, len(lines))] and its [break]. *)
Fixpoint first_paragraph (rest : list text) : option text :=
  match rest with
  | [] => None
  | l :: rest' => if is_paragraph_line l then Some (strip l) else first_paragraph rest'
  end.

(** The outer loop [for i, line in enumerate(lines)]. *)
Fixpoint headline_paragraphs (lines : list text) : list text :=
  match lines with
  | [] => []
  | line :: rest =>
      if is_prefix [35; 32] line then
        match first_paragraph rest with
        | Some p => p :: headline_paragraphs rest
        | None => headline_paragraphs rest
        end
      else headline_paragraphs rest
  end.

(** [posts], before they are posted in reverse order:
    [lines = result.split('\n')], one composed post per paragraph. *)
Definition headline_posts (u : unicode_db) (result url : text) : list text :=
  map (fun p => compose_post u p url) (headline_paragraphs (split_on 10 result)).

(** [re.sub(r"\[(.*?)\]\((.*?)\)", r"\2", result)] ([the_batch.py] line 235,
    [rundown.py] line 189).  [.] is every character but the newline, and
    both groups are lazy: the shortest candidate is tried first, then one
    more character, as the backtracking matcher does. *)

(** [(.*?)\)]: length of the shortest newline-free run followed by [)]. *)
Fixpoint lazy_until_paren (s : text) : option nat :=
  match s with
  | [] => None
  | c :: s' =>
      if c =? 41 then Some O
      else if c =? 10 then None
      else match lazy_until_paren s' with
           | Some m => Some (S m)
           | None => None
           end
  end.

(** [(.*?)\]\((.*?)\)] after the opening [[]: the length of the rest of
    the match and the second group. *)
Fixpoint link_tail (s : text) : option (nat * text) :=
  match s with
  | [] => None
  | c :: s' =>
      let closed :=
        match s' with
        | d :: r =>
            if (c =? 93) && (d =? 40) then
              match lazy_until_paren r with
              | Some m => Some (3 + m, firstn m r)%nat
              | None => None
              end
            else None
        | [] => None
        end in
      match closed with
      | Some res => Some res
      | None =>
          if c =? 10 then None
          else match link_tail s' with
               | Some (n, g) => Some (S n, g)
               | None => None
               end
      end
  end.

(** The scan of [re.sub]: a match (never empty) is replaced by its second
    group and the scan goes on after it; otherwise one character is kept. *)
Fixpoint replace_links_go (fuel : nat) (s : text) : text :=
  match fuel with
  | O => s
  | S f =>
      match s with
      | [] => []
      | c :: s' =>
          match (if c =? 91 then link_tail s' else None) with
          | Some (n, g) => g ++ replace_links_go f (skipn n s')
          | None => c :: replace_links_go f s'
          end
      end
  end.

Definition replace_markdown_links (s : text) : text := replace_links_go (length s) s.

(** ** An excerpt of the Unicode Character Database, for evaluation

    NFC is full canonical decomposition, canonical ordering of combining
    marks and canonical composition.  The tables below hold the entries of
    the characters used in the examples of this file (U+00E9, U+1EB9 and the
    combining marks U+0301, U+0302, U+0323); every other character is a
    starter without decomposition, which is what the Unicode data says for
    the ASCII, kana and CJK characters used below. *)
Definition ccc (c : Z) : Z :=
  if (c =? 769) || (c =? 770) then 230 else if c =? 803 then 220 else 0.

Definition decompose_char (c : Z) : text :=
  if c =? 233 then [101; 769]
  else if c =? 7865 then [101; 803]
  else [c].

Definition compose_pair (x c : Z) : option Z :=
  if (x =? 101) && (c =? 769) then Some 233
  else if (x =? 101) && (c =? 803) then Some 7865
  else None.

(** Stable insertion of a mark into a run sorted by combining class. *)
Fixpoint insert_ccc (c : Z) (run : text) : text :=
  match run with
  | [] => [c]
  | d :: r => if ccc d <=? ccc c then d :: insert_ccc c r else c :: d :: r
  end.

Fixpoint reorder_go (run : text) (s : text) : text :=
  match s with
  | [] => run
  | c :: s' =>
      if ccc c =? 0 then run ++ c :: reorder_go [] s'
      else reorder_go (insert_ccc c run) s'
  end.

(** Canonical composition: [done] (reversed) is the output before the last
    starter [st], [tl] (reversed) the marks kept after it.  A mark is
    blocked from [st] when the last kept mark has a class at least its own;
    a starter composes only with an adjacent starter. *)
Fixpoint compose_go (done : text) (st : option Z) (tl : text) (s : text) : text :=
  match s with
  | [] => rev done ++ match st with Some x => [x] | None => [] end ++ rev tl
  | c :: s' =>
      let blocked := match tl with [] => false | d :: _ => ccc c <=? ccc d end in
      let keep :=
        if ccc c =? 0 then
          compose_go (tl ++ match st with Some x => [x] | None => [] end ++ done)
                     (Some c) [] s'
        else match st with
             | None => compose_go (c :: done) None [] s'
             | Some _ => compose_go done st (c :: tl) s'
             end in
      match st with
      | Some x =>
          if blocked then keep
          else match compose_pair x c with
               | Some y => compose_go done (Some y) tl s'
               | None => keep
               end
      | None => keep
      end
  end.

Definition nfc_excerpt (s : text) : text :=
  compose_go [] None [] (reorder_go [] (flat_map decompose_char s)).

(** Categories Cc, Cf, Cs and Co (unassigned code points, Cn, are not
    listed). *)
Definition category_is_C_excerpt (c : Z) : bool :=
  (c <=? 31) || ((127 <=? c) && (c <=? 159)) || (c =? 173)
  || ((1536 <=? c) && (c <=? 1541)) || (c =? 1564) || (c =? 1757) || (c =? 1807)
  || (c =? 6158) || ((8203 <=? c) && (c <=? 8207)) || ((8234 <=? c) && (c <=? 8238))
  || ((8288 <=? c) && (c <=? 8292)) || ((8294 <=? c) && (c <=? 8303))
  || (c =? 65279) || ((65529 <=? c) && (c <=? 65531))
  || ((55296 <=? c) && (c <=? 63743))
  || ((983040 <=? c) && (c <=? 1114109)).

Definition ucd_excerpt : unicode_db :=
  {| nfc := nfc_excerpt; category_is_C := category_is_C_excerpt |}.

(** ** Auxiliary functions for the proofs *)

(** Sum of the per-character weights of a text (no URL handling). *)
Fixpoint sum_weights (s : text) : Z :=
  match s with
  | [] => 0
  | c :: s' => get_character_weight c + sum_weights s'
  end.

(** The weight computed from one run of the URL scan. *)
Definition scan_weight (fuel : nat) (s : text) : Z :=
  let '(us, rest) := url_scan fuel s in sum_weights rest + 23 * Z.of_nat (length us).

(** ** Inputs used by the concrete statements below *)

(** "https://example.com/x" and "https://example.com" *)
Definition example_url_x : text :=
  https_scheme ++ [101; 120; 97; 109; 112; 108; 101; 46; 99; 111; 109; 47; 120].
Definition example_url : text :=
  https_scheme ++ [101; 120; 97; 109; 112; 108; 101; 46; 99; 111; 109].

(** "あ" * 200 + "\n" + "https://example.com/x" *)
Definition kana_run_then_url_line : text := repeat_char 12354 200 ++ [10] ++ example_url_x.

(** "AI" + "\u200B" + "ニュース" and "AIニュース" *)
Definition ai_news_zwsp : text := [65; 73; 8203; 12491; 12517; 12540; 12473].
Definition ai_news : text := [65; 73; 12491; 12517; 12540; 12473].

(** "A" * 271 + "http://xyz" *)
Definition ascii_then_scheme_word : text := repeat_char 65 271 ++ http_scheme ++ [120; 121; 122].

(** "e" + "\u200B" + "\u0301" *)
Definition e_zwsp_acute : text := [101; 8203; 769].

(** "あ" * 139 + "é" + "\u200B" + "\u0323" *)
Definition kana_e_acute_zwsp_dot_below : text := repeat_char 12354 139 ++ [233; 8203; 803].

(** "A" * 279 + "e" + "\u200B" + "\u0301" *)
Definition ascii_then_e_zwsp_acute : text := repeat_char 65 279 ++ e_zwsp_acute.

(** "ああ https://example.com" *)
Definition two_kana_then_url : text := [12354; 12354; 32] ++ example_url.

(** * Properties *)

Example weight_hello : get_weighted_length
  [72; 101; 108; 108; 111; 32; 119; 111; 114; 108; 100; 33] = 12.
Proof. reflexivity. Qed.

Example weight_examples :
  get_weighted_length (http_scheme ++ [97]) = 23 /\
  get_weighted_length http_scheme = 7 /\
  get_weighted_length (repeat_char 12354 140) = 280 /\
  get_weighted_length (repeat_char 12354 141) = 282.
Proof. vm_compute. auto. Qed.

Example nfc_excerpt_examples :
  nfc_excerpt [101; 769] = [233] /\
  nfc_excerpt [233; 8203; 803] = [233; 8203; 803] /\
  nfc_excerpt [233; 803] = [7865; 769] /\
  nfc_excerpt [101; 8203; 769] = [101; 8203; 769].
Proof. vm_compute. auto. Qed.

(** ** Lemmas on the string helpers *)

Section StringHelpers.

Lemma lstrip_shape (s : text) :
  lstrip s = [] \/ exists c t, lstrip s = c :: t /\ is_space c = false.
Proof.
  induction s as [|c s IH]; simpl; [now left|].
  destruct (is_space c) eqn:E; [exact IH|right; eauto].
Qed.

Lemma lstrip_fix (s : text) :
  (s = [] \/ exists c t, s = c :: t /\ is_space c = false) -> lstrip s = s.
Proof.
  intros [->|(c & t & -> & E)]; simpl; [reflexivity|now rewrite E].
Qed.

Lemma lstrip_idem (s : text) : lstrip (lstrip s) = lstrip s.
Proof. apply lstrip_fix, lstrip_shape. Qed.

Lemma lstrip_suffix (s : text) : exists p, s = p ++ lstrip s.
Proof.
  induction s as [|c s [p Hp]]; simpl; [now exists []|].
  destruct (is_space c).
  - exists (c :: p). simpl. now rewrite <- Hp.
  - now exists [].
Qed.

Lemma rstrip_prefix (s : text) : exists t, s = rstrip s ++ t.
Proof.
  destruct (lstrip_suffix (rev s)) as [p Hp].
  exists (rev p). unfold rstrip.
  rewrite <- rev_app_distr, <- Hp, rev_involutive. reflexivity.
Qed.

Lemma in_lstrip (c : Z) (s : text) : In c (lstrip s) -> In c s.
Proof.
  destruct (lstrip_suffix s) as [p Hp]. intro H.
  rewrite Hp. apply in_or_app. now right.
Qed.

Lemma in_rstrip (c : Z) (s : text) : In c (rstrip s) -> In c s.
Proof.
  destruct (rstrip_prefix s) as [t Ht]. intro H.
  rewrite Ht. apply in_or_app. now left.
Qed.

Lemma in_strip (c : Z) (s : text) : In c (strip s) -> In c s.
Proof. unfold strip. intro H. now apply in_lstrip, in_rstrip. Qed.

Lemma rstrip_idem (s : text) : rstrip (rstrip s) = rstrip s.
Proof. unfold rstrip. now rewrite rev_involutive, lstrip_idem. Qed.

Lemma lstrip_rstrip_of_stripped (t : text) :
  lstrip t = t -> lstrip (rstrip t) = rstrip t.
Proof.
  intro Ht. destruct (rstrip_prefix t) as [x Hx].
  destruct (rstrip t) as [|c y] eqn:E; [reflexivity|].
  apply lstrip_fix. right. exists c, y. split; [reflexivity|].
  destruct (lstrip_shape t) as [H|(c' & t' & H & Hs)].
  - rewrite Ht in H. subst t. discriminate.
  - rewrite Ht in H. rewrite H in Hx. simpl in Hx. injection Hx as -> _. exact Hs.
Qed.

Lemma strip_idem (s : text) : strip (strip s) = strip s.
Proof.
  unfold strip.
  rewrite (lstrip_rstrip_of_stripped (lstrip s) (lstrip_idem s)).
  apply rstrip_idem.
Qed.

Lemma lstrip_all_space (s : text) : forallb is_space s = true -> lstrip s = [].
Proof.
  induction s as [|c s IH]; simpl; [reflexivity|].
  intro H. apply andb_prop in H as [H1 H2]. rewrite H1. now apply IH.
Qed.

Lemma strip_all_space (s : text) : forallb is_space s = true -> strip s = [].
Proof. intro H. unfold strip. now rewrite lstrip_all_space. Qed.

(** Whitespace in the output of [collapse_go]: single spaces only. *)
Fixpoint ws_ok (prev : bool) (s : text) : bool :=
  match s with
  | [] => true
  | c :: s' =>
      if is_space c then negb prev && (c =? 32) && ws_ok true s'
      else ws_ok false s'
  end.

Lemma ws_ok_collapse (b : bool) (s : text) : ws_ok b (collapse_go b s) = true.
Proof.
  revert b. induction s as [|c s IH]; intro b; simpl; [reflexivity|].
  destruct (is_space c) eqn:E.
  - destruct b; [apply IH|]. simpl. rewrite IH. reflexivity.
  - simpl. rewrite E. apply IH.
Qed.

Lemma ws_ok_weaken (s : text) : ws_ok true s = true -> ws_ok false s = true.
Proof.
  destruct s as [|c s]; simpl; [reflexivity|].
  destruct (is_space c); [discriminate|exact id].
Qed.

Lemma ws_ok_app_l (b : bool) (l1 l2 : text) :
  ws_ok b (l1 ++ l2) = true -> ws_ok b l1 = true.
Proof.
  revert b. induction l1 as [|c l1 IH]; intro b; simpl; [reflexivity|].
  destruct (is_space c).
  - intro H. apply andb_prop in H as [H1 H2]. rewrite H1. simpl. now apply IH.
  - apply IH.
Qed.

Lemma ws_ok_lstrip (s : text) : ws_ok false s = true -> ws_ok false (lstrip s) = true.
Proof.
  induction s as [|c s IH]; simpl; [reflexivity|].
  destruct (is_space c) eqn:E; simpl.
  - intro H. apply andb_prop in H as [_ H]. apply IH, ws_ok_weaken, H.
  - rewrite E. exact id.
Qed.

Lemma ws_ok_strip (s : text) : ws_ok false s = true -> ws_ok false (strip s) = true.
Proof.
  intro H. unfold strip. apply ws_ok_lstrip in H.
  destruct (rstrip_prefix (lstrip s)) as [t Ht].
  rewrite Ht in H. eapply ws_ok_app_l, H.
Qed.

Lemma collapse_fix (b : bool) (s : text) : ws_ok b s = true -> collapse_go b s = s.
Proof.
  revert b. induction s as [|c s IH]; intro b; simpl; [reflexivity|].
  destruct (is_space c) eqn:E.
  - intro H. apply andb_prop in H as [H1 H2]. apply andb_prop in H1 as [Hb Hc].
    destruct b; [discriminate|]. apply Z.eqb_eq in Hc. subst c.
    now rewrite IH.
  - intro H. now rewrite IH.
Qed.

Lemma in_collapse (b : bool) (c : Z) (s : text) :
  In c (collapse_go b s) -> c = 32 \/ (In c s /\ is_space c = false).
Proof.
  revert b. induction s as [|d s IH]; intro b; simpl; [tauto|].
  destruct (is_space d) eqn:E.
  - destruct b; simpl.
    + intro H. destruct (IH true H) as [H'|[H' H'']]; tauto.
    + intros [H|H]; [now left|]. destruct (IH true H) as [H'|[H' H'']]; tauto.
  - simpl. intros [H|H]; [subst; tauto|]. destruct (IH false H) as [H'|[H' H'']]; tauto.
Qed.

Lemma collapse_all_space (b : bool) (s : text) :
  forallb is_space s = true -> forallb is_space (collapse_go b s) = true.
Proof.
  intro H. apply forallb_forall. intros c Hc.
  destruct (in_collapse b c s Hc) as [->|[Hin Hs]]; [reflexivity|].
  rewrite forallb_forall in H. rewrite (H c Hin) in Hs. discriminate.
Qed.

Lemma filter_fix (f : Z -> bool) (s : text) :
  (forall c, In c s -> f c = true) -> filter f s = s.
Proof.
  induction s as [|c s IH]; intro H; simpl; [reflexivity|].
  rewrite (H c (or_introl eq_refl)). f_equal. apply IH. intros d Hd. apply H. now right.
Qed.

Lemma in_drop_gen (L : list Z) (c : Z) (s : text) :
  In c (fold_left (fun t ch => replace_by_empty ch t) L s) -> In c s /\ ~ In c L.
Proof.
  revert s. induction L as [|ch L IH]; intros s H; simpl in *; [tauto|].
  destruct (IH _ H) as [H1 H2]. unfold replace_by_empty in H1.
  apply filter_In in H1 as [H1 H3]. split; [exact H1|].
  intros [->|H4]; [now rewrite Z.eqb_refl in H3|tauto].
Qed.

Lemma drop_fix_gen (L : list Z) (s : text) :
  (forall c, In c s -> ~ In c L) ->
  fold_left (fun t ch => replace_by_empty ch t) L s = s.
Proof.
  revert s. induction L as [|ch L IH]; intros s H; simpl; [reflexivity|].
  unfold replace_by_empty at 2. rewrite filter_fix.
  - apply IH. intros c Hc Hn. apply (H c Hc). now right.
  - intros c Hc. destruct (Z.eqb_spec c ch); [|reflexivity].
    subst. exfalso. apply (H ch Hc). now left.
Qed.

Lemma in_remove_invisible (u : unicode_db) (c : Z) (s : text) :
  In c (remove_invisible_chars u s) ->
  In c s /\ ~ In c INVISIBLE_CHARS /\ keeps_char u c = true.
Proof.
  unfold remove_invisible_chars. destruct s as [|d s]; [simpl; tauto|].
  intro H. apply filter_In in H as [H1 H2].
  apply in_drop_gen in H1. tauto.
Qed.

Lemma remove_invisible_fix (u : unicode_db) (s : text) :
  (forall c, In c s -> ~ In c INVISIBLE_CHARS /\ keeps_char u c = true) ->
  remove_invisible_chars u s = s.
Proof.
  intro H. unfold remove_invisible_chars. destruct s as [|d s]; [reflexivity|].
  unfold drop_invisible_chars. rewrite drop_fix_gen.
  - apply filter_fix. intros c Hc. apply H, Hc.
  - intros c Hc. apply H, Hc.
Qed.

End StringHelpers.

(** ** Normalisation *)

Section Normalisation.

Variable u : unicode_db.

Lemma keeps_space : keeps_char u 32 = true.
Proof. unfold keeps_char. simpl. now rewrite andb_false_r. Qed.

(** The steps of [normalize_text] after NFC (removal of invisible and
    control characters, whitespace collapsing, trimming) are idempotent. *)
Lemma cleanup_idem (y : text) :
  let w := strip (collapse_ws (remove_invisible_chars u y)) in
  strip (collapse_ws (remove_invisible_chars u w)) = w.
Proof.
  intro w.
  assert (Hok : ws_ok false w = true)
    by (apply ws_ok_strip, ws_ok_collapse).
  rewrite remove_invisible_fix.
  - unfold collapse_ws. rewrite (collapse_fix false w Hok). apply strip_idem.
  - intros c Hc. apply in_strip in Hc.
    destruct (in_collapse false c _ Hc) as [->|[H _]].
    + split; [simpl; lia|apply keeps_space].
    + apply in_remove_invisible in H. tauto.
Qed.

Lemma normalize_text_cases (x : text) :
  normalize_text u x = [] \/
  normalize_text u x = strip (collapse_ws (remove_invisible_chars u (nfc u x))).
Proof. destruct x; [now left|now right]. Qed.

Lemma normalize_text_spaces (s : text) (c : Z) :
  In c (normalize_text u s) -> is_space c = true -> c = 32.
Proof.
  destruct (normalize_text_cases s) as [-> | ->]; [contradiction|].
  intros H Hs. apply in_strip in H.
  destruct (in_collapse false c _ H) as [->|[_ H']]; [reflexivity|].
  rewrite Hs in H'. discriminate.
Qed.

Lemma split_on_absent (sep : Z) (s : text) : ~ In sep s -> split_on sep s = [s].
Proof.
  induction s as [|c s IH]; intro H; simpl; [reflexivity|].
  destruct (Z.eqb_spec c sep) as [->|_]; [exfalso; apply H; now left|].
  rewrite IH; [reflexivity|]. intro H'. apply H. now right.
Qed.

Lemma remove_invisible_all_space (t : text) :
  forallb is_space t = true -> forallb is_space (remove_invisible_chars u t) = true.
Proof.
  intro H. apply forallb_forall. intros c Hc.
  apply in_remove_invisible in Hc as [Hc _].
  rewrite forallb_forall in H. now apply H.
Qed.

Lemma normalize_text_all_space (s : text) :
  forallb is_space (nfc u s) = true -> normalize_text u s = [].
Proof.
  intro H. destruct (normalize_text_cases s) as [-> | ->]; [reflexivity|].
  apply strip_all_space, collapse_all_space, remove_invisible_all_space, H.
Qed.

End Normalisation.

(** ** The weighted length as a recursive function *)

Section WeightEquations.

Lemma char_weight_bounds (c : Z) : 1 <= get_character_weight c <= 2.
Proof. unfold get_character_weight. destruct existsb; lia. Qed.

Lemma sum_weights_nonneg (s : text) : 0 <= sum_weights s.
Proof.
  induction s as [|c s IH]; simpl; [lia|]. pose proof (char_weight_bounds c). lia.
Qed.

Lemma count_weights_sum (s : text) (w1 w2 a b : Z) :
  count_weights s w1 w2 = (a, b) -> a + b * 2 = w1 + w2 * 2 + sum_weights s.
Proof.
  revert w1 w2. induction s as [|c s IH]; intros w1 w2; simpl.
  - intro H. injection H as -> ->. lia.
  - pose proof (char_weight_bounds c) as Hb.
    destruct (Z.eqb_spec (get_character_weight c) 1) as [E|E]; intro H;
      apply IH in H; lia.
Qed.

Lemma scan_weight_nonneg (f : nat) (s : text) : 0 <= scan_weight f s.
Proof.
  unfold scan_weight. destruct (url_scan f s) as [us rest].
  pose proof (sum_weights_nonneg rest). lia.
Qed.

Lemma get_weighted_length_scan (s : text) :
  get_weighted_length s = scan_weight (length s) s.
Proof.
  unfold get_weighted_length, calculate_weighted_length, scan_weight,
    findall_urls, sub_urls.
  destruct s as [|c s']; [reflexivity|].
  destruct (url_scan (length (c :: s')) (c :: s')) as [us rest]. simpl fst; simpl snd.
  destruct (count_weights rest 0 0) as [a b] eqn:E.
  apply count_weights_sum in E. cbn [weighted_length]. lia.
Qed.

Lemma scan_weight_cons (f : nat) (c : Z) (s : text) :
  scan_weight (S f) (c :: s) =
  match match_at (c :: s) with
  | Some n => 23 + scan_weight f (skipn n (c :: s))
  | None => get_character_weight c + scan_weight f s
  end.
Proof.
  unfold scan_weight. simpl url_scan.
  destruct (match_at (c :: s)) as [n|].
  - destruct (url_scan f (skipn n (c :: s))) as [us rest]. simpl length. lia.
  - destruct (url_scan f s) as [us rest]. simpl. lia.
Qed.

Lemma is_prefix_length (p s : text) : is_prefix p s = true -> (length p <= length s)%nat.
Proof.
  revert s. induction p as [|x p IH]; intros [|y s]; simpl; try lia; try discriminate.
  intro H. apply andb_prop in H as [_ H]. apply IH in H. lia.
Qed.

Lemma scheme_len_bound (s : text) (k : nat) :
  scheme_len s = Some k -> (7 <= k <= length s)%nat.
Proof.
  unfold scheme_len.
  destruct (is_prefix https_scheme s) eqn:E1.
  - intro H. injection H as <-. apply is_prefix_length in E1. simpl in E1. lia.
  - destruct (is_prefix http_scheme s) eqn:E2; [|discriminate].
    intro H. injection H as <-. apply is_prefix_length in E2. simpl in E2. lia.
Qed.

Lemma url_run_le (s : text) : (url_run s <= length s)%nat.
Proof.
  induction s as [|c s IH]; simpl; [lia|]. destruct (url_char c); lia.
Qed.

Lemma match_at_bound (s : text) (n : nat) :
  match_at s = Some n -> (7 < n <= length s)%nat.
Proof.
  unfold match_at. destruct (scheme_len s) as [k|] eqn:E; [|discriminate].
  apply scheme_len_bound in E.
  pose proof (url_run_le (skipn k s)) as Hr. rewrite length_skipn in Hr.
  destruct (Nat.eqb_spec (url_run (skipn k s)) 0); [discriminate|].
  intro H. injection H as <-. lia.
Qed.

Lemma url_scan_fuel (f1 f2 : nat) (s : text) :
  (length s <= f1)%nat -> (length s <= f2)%nat -> url_scan f1 s = url_scan f2 s.
Proof.
  revert f2 s. induction f1 as [|f1 IH]; intros f2 s H1 H2.
  - destruct s; [|simpl in H1; lia]. destruct f2; reflexivity.
  - destruct f2 as [|f2]; [destruct s; [reflexivity|simpl in H2; lia]|].
    destruct s as [|c s]; [reflexivity|]. simpl.
    destruct (match_at (c :: s)) as [n|] eqn:E.
    + apply match_at_bound in E.
      assert (Hl : length (skipn n (c :: s)) = (length (c :: s) - n)%nat)
        by apply length_skipn.
      cbn [length] in *. rewrite (IH f2 (skipn n (c :: s))); [reflexivity| |];
        rewrite Hl; cbn [length]; lia.
    + cbn [length] in *. rewrite (IH f2 s); [reflexivity| |]; lia.
Qed.

Lemma weight_cons (c : Z) (s : text) :
  get_weighted_length (c :: s) =
  match match_at (c :: s) with
  | Some n => 23 + get_weighted_length (skipn n (c :: s))
  | None => get_character_weight c + get_weighted_length s
  end.
Proof.
  rewrite get_weighted_length_scan. simpl length. rewrite scan_weight_cons.
  destruct (match_at (c :: s)) as [n|] eqn:E.
  - rewrite get_weighted_length_scan. unfold scan_weight.
    apply match_at_bound in E.
    assert (Hl : length (skipn n (c :: s)) = (length (c :: s) - n)%nat)
      by apply length_skipn.
    cbn [length] in *.
    rewrite (url_scan_fuel (length s) (length (skipn n (c :: s)))); [reflexivity| |];
      rewrite Hl; cbn [length]; lia.
  - now rewrite get_weighted_length_scan.
Qed.

Lemma weight_nonneg (s : text) : 0 <= get_weighted_length s.
Proof. rewrite get_weighted_length_scan. apply scan_weight_nonneg. Qed.

Lemma weight_nil : get_weighted_length [] = 0.
Proof. reflexivity. Qed.

End WeightEquations.

(** ** Appending one character to a text *)

Section Snoc.

Lemma is_prefix_snoc (p l : text) (c : Z) :
  is_prefix p l = true -> is_prefix p (l ++ [c]) = true.
Proof.
  revert l. induction p as [|x p IH]; intros [|y l]; simpl; try easy.
  intro H. apply andb_prop in H as [H1 H2]. now rewrite H1, IH.
Qed.

Lemma is_prefix_nil (p : text) : is_prefix p [] = true -> p = [].
Proof. destruct p; easy. Qed.

Lemma is_prefix_snoc_inv (p l : text) (c : Z) :
  is_prefix p (l ++ [c]) = true -> is_prefix p l = true \/ p = l ++ [c].
Proof.
  revert l. induction p as [|x p IH]; intros [|y l]; simpl; try tauto.
  - intro H. apply andb_prop in H as [H1 H2]. apply Z.eqb_eq in H1.
    apply is_prefix_nil in H2. subst. now right.
  - intro H. apply andb_prop in H as [H1 H2]. rewrite H1. simpl.
    apply Z.eqb_eq in H1. subst.
    destruct (IH l H2) as [H|H]; [now left|subst; now right].
Qed.

Lemma is_prefix_full (p l : text) :
  is_prefix p l = true -> length l = length p -> l = p.
Proof.
  revert l. induction p as [|x p IH]; intros [|y l]; simpl; try easy.
  intros H Hl. apply andb_prop in H as [H1 H2]. apply Z.eqb_eq in H1. subst.
  f_equal. apply IH; [exact H2|lia].
Qed.

Lemma url_run_snoc (l : text) (c : Z) :
  url_run (l ++ [c]) =
  if Nat.eqb (url_run l) (length l)
  then (url_run l + (if url_char c then 1 else 0))%nat
  else url_run l.
Proof.
  induction l as [|x l IH]; simpl.
  - destruct (url_char c); reflexivity.
  - destruct (url_char x); simpl; [|reflexivity].
    rewrite IH. destruct (Nat.eqb (url_run l) (length l)); reflexivity.
Qed.

Lemma scheme_len_snoc (P : text) (c : Z) (k : nat) :
  scheme_len P = Some k -> scheme_len (P ++ [c]) = Some k.
Proof.
  unfold scheme_len.
  destruct (is_prefix https_scheme P) eqn:E1.
  - now rewrite (is_prefix_snoc _ _ _ E1).
  - destruct (is_prefix http_scheme P) eqn:E2; [|discriminate].
    intro H. rewrite (is_prefix_snoc _ _ _ E2).
    destruct (is_prefix https_scheme (P ++ [c])) eqn:E3; [|exact H].
    destruct (is_prefix_snoc_inv _ _ _ E3) as [E4|E4]; [congruence|].
    change https_scheme with ([104; 116; 116; 112; 115; 58; 47] ++ [47]) in E4.
    apply app_inj_tail in E4 as [E4 _]. subst P. discriminate.
Qed.

Lemma scheme_len_snoc_none (P : text) (c : Z) (k : nat) :
  scheme_len P = None -> scheme_len (P ++ [c]) = Some k -> length (P ++ [c]) = k.
Proof.
  unfold scheme_len.
  destruct (is_prefix https_scheme P) eqn:E1; [discriminate|].
  destruct (is_prefix http_scheme P) eqn:E2; [discriminate|].
  intros _.
  destruct (is_prefix https_scheme (P ++ [c])) eqn:E3.
  - intro H. injection H as <-.
    destruct (is_prefix_snoc_inv _ _ _ E3) as [E4|E4]; [congruence|].
    now rewrite <- E4.
  - destruct (is_prefix http_scheme (P ++ [c])) eqn:E4; [|discriminate].
    intro H. injection H as <-.
    destruct (is_prefix_snoc_inv _ _ _ E4) as [E5|E5]; [congruence|].
    now rewrite <- E5.
Qed.

Lemma scheme_len_full (P : text) (k : nat) :
  scheme_len P = Some k -> length P = k -> P = http_scheme \/ P = https_scheme.
Proof.
  unfold scheme_len.
  destruct (is_prefix https_scheme P) eqn:E1.
  - intros H Hl. injection H as <-. right. now apply is_prefix_full.
  - destruct (is_prefix http_scheme P) eqn:E2; [|discriminate].
    intros H Hl. injection H as <-. left. now apply is_prefix_full.
Qed.

Lemma match_at_snoc_some (P : text) (c : Z) (n : nat) :
  match_at P = Some n ->
  match_at (P ++ [c]) =
  Some (if Nat.eqb n (length P) && url_char c then S n else n).
Proof.
  unfold match_at. destruct (scheme_len P) as [k|] eqn:E; [|discriminate].
  rewrite (scheme_len_snoc _ _ _ E).
  apply scheme_len_bound in E.
  rewrite skipn_app. replace (k - length P)%nat with 0%nat by lia. change (skipn 0 [c]) with [c].
  rewrite url_run_snoc, length_skipn.
  destruct (Nat.eqb_spec (url_run (skipn k P)) 0) as [Z0|Z0]; [discriminate|].
  intro H. injection H as <-.
  pose proof (url_run_le (skipn k P)) as Hr. rewrite length_skipn in Hr.
  destruct (Nat.eqb_spec (url_run (skipn k P)) (length P - k)) as [R|R];
    destruct (Nat.eqb_spec (k + url_run (skipn k P)) (length P)) as [R'|R']; try lia.
  - destruct (url_char c); simpl.
    + destruct (Nat.eqb_spec (url_run (skipn k P) + 1) 0); [lia|]. f_equal. lia.
    + destruct (Nat.eqb_spec (url_run (skipn k P) + 0) 0); [lia|]. f_equal. lia.
  - rewrite andb_false_l.
    destruct (Nat.eqb_spec (url_run (skipn k P)) 0); [lia|]. reflexivity.
Qed.

Lemma match_at_snoc_none (P : text) (c : Z) (m : nat) :
  match_at P = None -> match_at (P ++ [c]) = Some m ->
  P = http_scheme \/ P = https_scheme.
Proof.
  unfold match_at. destruct (scheme_len P) as [k|] eqn:E.
  - rewrite (scheme_len_snoc _ _ _ E).
    pose proof (scheme_len_bound _ _ E) as Hk.
    rewrite skipn_app. replace (k - length P)%nat with 0%nat by lia. change (skipn 0 [c]) with [c].
    rewrite url_run_snoc, length_skipn.
    destruct (Nat.eqb_spec (url_run (skipn k P)) 0) as [Z0|Z0]; [|discriminate].
    intros _. rewrite Z0.
    destruct (Nat.eqb_spec 0 (length P - k)) as [L|L].
    + intros _. apply (scheme_len_full P k E). lia.
    + simpl. discriminate.
  - intros _. destruct (scheme_len (P ++ [c])) as [k|] eqn:E2; [|discriminate].
    pose proof (scheme_len_snoc_none _ _ _ E E2) as Hl.
    rewrite skipn_all2 by lia. simpl. discriminate.
Qed.

Lemma weight_http_scheme : get_weighted_length http_scheme = 7.
Proof. reflexivity. Qed.

Lemma weight_https_scheme : get_weighted_length https_scheme = 8.
Proof. reflexivity. Qed.

(** One more character never lowers the weighted length. *)
Lemma weight_snoc (P : text) (c : Z) :
  get_weighted_length P <= get_weighted_length (P ++ [c]).
Proof.
  remember (length P) as len eqn:HL.
  assert (Hle : (length P <= len)%nat) by lia. clear HL. revert P Hle.
  induction len as [|len IH]; intros P Hle.
  - destruct P; [|simpl in Hle; lia]. simpl. rewrite weight_nil. apply weight_nonneg.
  - destruct P as [|x P'].
    + simpl. rewrite weight_nil. apply weight_nonneg.
    + change ((x :: P') ++ [c]) with (x :: (P' ++ [c])).
      rewrite (weight_cons x P'), (weight_cons x (P' ++ [c])).
      change (x :: (P' ++ [c])) with ((x :: P') ++ [c]).
      destruct (match_at (x :: P')) as [n|] eqn:E.
      * rewrite (match_at_snoc_some _ c _ E).
        pose proof (match_at_bound _ _ E) as Hn.
        destruct (Nat.eqb_spec n (length (x :: P'))) as [En|En];
          destruct (url_char c) eqn:Ec; simpl andb; cbv iota.
        -- rewrite (skipn_all2 (n := S n)) by (rewrite length_app; simpl in *; lia).
           rewrite (skipn_all2 (n := n)) by lia. lia.
        -- rewrite skipn_app. replace (n - length (x :: P'))%nat with 0%nat by lia.
           change (skipn 0 [c]) with [c]. pose proof (IH (skipn n (x :: P'))) as H.
           rewrite length_skipn in H. specialize (H ltac:(cbn [length] in *; lia)). lia.
        -- rewrite skipn_app. replace (n - length (x :: P'))%nat with 0%nat by lia.
           change (skipn 0 [c]) with [c]. pose proof (IH (skipn n (x :: P'))) as H.
           rewrite length_skipn in H. specialize (H ltac:(cbn [length] in *; lia)). lia.
        -- rewrite skipn_app. replace (n - length (x :: P'))%nat with 0%nat by lia.
           change (skipn 0 [c]) with [c]. pose proof (IH (skipn n (x :: P'))) as H.
           rewrite length_skipn in H. specialize (H ltac:(cbn [length] in *; lia)). lia.
      * destruct (match_at ((x :: P') ++ [c])) as [m|] eqn:E2.
        -- destruct (match_at_snoc_none _ _ _ E E2) as [Hs|Hs].
           ++ pose proof (weight_cons x P') as W. rewrite E in W.
              rewrite <- W, Hs, weight_http_scheme.
              pose proof (weight_nonneg (skipn m (http_scheme ++ [c]))). lia.
           ++ pose proof (weight_cons x P') as W. rewrite E in W.
              rewrite <- W, Hs, weight_https_scheme.
              pose proof (weight_nonneg (skipn m (https_scheme ++ [c]))). lia.
        -- specialize (IH P' ltac:(simpl in Hle; lia)). lia.
Qed.

Lemma weight_app (l t : text) : get_weighted_length l <= get_weighted_length (l ++ t).
Proof.
  induction t as [|c t IH] using rev_ind.
  - rewrite app_nil_r. lia.
  - rewrite app_assoc. pose proof (weight_snoc (l ++ t) c). lia.
Qed.

End Snoc.

(** ** Evaluating [normalize_text] on a concrete text *)

Lemma normalize_text_eval (u : unicode_db) (s s1 L : text) :
  s <> [] -> nfc u s = s1 ->
  (forall c, In c L -> category_is_C u c = false) ->
  forallb (fun c => existsb (Z.eqb c) (L ++ [10; 13; 9; 32])) (drop_invisible_chars s1) = true ->
  normalize_text u s = strip (collapse_ws (drop_invisible_chars s1)).
Proof.
  intros Hs Hnfc HL Hall. destruct s as [|a s]; [contradiction|].
  change (normalize_text u (a :: s))
    with (strip (collapse_ws (remove_invisible_chars u (nfc u (a :: s))))).
  rewrite Hnfc. do 2 f_equal. unfold remove_invisible_chars.
  destruct s1 as [|b s1]; [reflexivity|].
  apply filter_fix. intros c Hc. rewrite forallb_forall in Hall.
  specialize (Hall c Hc). apply existsb_exists in Hall as [d [Hd Hcd]].
  apply Z.eqb_eq in Hcd. subst d. unfold keeps_char.
  apply in_app_or in Hd as [Hd|Hd].
  - now rewrite (HL c Hd).
  - assert (E : existsb (Z.eqb c) [10; 13; 9; 32] = true)
      by (apply existsb_exists; exists c; split; [exact Hd|apply Z.eqb_refl]).
    rewrite E. now rewrite andb_false_r.
Qed.

(** ** The trailing URL detected in a normalised text *)

Lemma split_ws_go_no_space (cur s w : text) (c : Z) :
  (forall d, In d cur -> is_space d = false) ->
  In w (split_ws_go cur s) -> In c w -> is_space c = false.
Proof.
  revert cur. induction s as [|d s IH]; intros cur Hcur; simpl.
  - destruct cur as [|x cur]; [contradiction|].
    intros [<-|[]] Hc. apply Hcur. now apply in_rev.
  - destruct (is_space d) eqn:Ed.
    + destruct cur as [|x cur]; [now apply IH|].
      intros [<-|Hw] Hc; [apply Hcur; now apply in_rev|].
      now apply (IH []).
    + apply IH. intros e [<-|He]; [exact Ed|now apply Hcur].
Qed.

Lemma last_in_list (l : list text) (d : text) : l <> [] -> In (last l d) l.
Proof.
  induction l as [|x l IH]; [contradiction|]. intros _.
  destruct l as [|y l]; [now left|]. right. apply IH. discriminate.
Qed.

Lemma strip_after_space (p : text) :
  (forall c, In c p -> is_space c = false) -> strip (32 :: p) = p.
Proof.
  intro Hp. unfold strip. cbn [lstrip is_space]. simpl.
  assert (Hl : forall q, (forall c, In c q -> is_space c = false) -> lstrip q = q).
  { intros [|c q] Hq; [reflexivity|]. apply lstrip_fix. right.
    exists c, q. split; [reflexivity|]. apply Hq. now left. }
  rewrite (Hl p Hp). unfold rstrip. rewrite (Hl (rev p)); [apply rev_involutive|].
  intros c Hc. apply Hp. now apply in_rev.
Qed.

Lemma detect_trailing_url_normalized (u : unicode_db) (s main_text trailing_url potential_url : text) :
  detect_trailing_url (normalize_text u s) = Some (main_text, trailing_url, potential_url) ->
  trailing_url = 32 :: potential_url /\ strip trailing_url = potential_url.
Proof.
  set (n := normalize_text u s).
  assert (H10 : ~ In 10 n)
    by (intro H; pose proof (normalize_text_spaces u s 10 H eq_refl); discriminate).
  unfold detect_trailing_url. rewrite (split_on_absent 10 n H10). cbn [length Nat.leb].
  destruct (length (split_ws n)) as [|[|k]] eqn:Ek; try (intro H; discriminate H).
  destruct (match_at (last (split_ws n) [])); [|intro H; discriminate H].
  intro H. injection H as _ <- <-. split; [reflexivity|].
  apply strip_after_space. intros c Hc.
  apply (split_ws_go_no_space [] n (last (split_ws n) [])); [easy| |exact Hc].
  apply last_in_list. intro E. change (split_ws n = []) in E. rewrite E in Ek. discriminate.
Qed.

(** Side conditions of [normalize_text_eval] on concrete texts. *)
Ltac eval_side :=
  first [ assumption
        | let Hx := fresh in intro Hx; vm_compute in Hx; discriminate Hx
        | vm_compute; reflexivity ].

(** * The claims *)

(** C4 (amended).  The breakdown holds counts of characters, not their
    weights: weight-1 count plus twice the weight-2 count plus the URL
    weight is the weighted length, and the URL weight is 23 per URL. *)
Theorem char_breakdown_weighted_sum (s : text) :
  let li := calculate_weighted_length s in
  weight_1 li + 2 * weight_2 li + urls li = weighted_length li /\
  urls li = 23 * url_count li.
Proof.
  destruct s as [|c s]; [simpl; lia|].
  unfold calculate_weighted_length.
  destruct (count_weights (sub_urls (c :: s)) 0 0) as [a b].
  cbn [weight_1 weight_2 urls weighted_length url_count]. lia.
Qed.

(** C4 (counterexample).  For "あ" the three fields sum to 1 while the
    weighted length is 2. *)
Lemma char_breakdown_plain_sum_fails :
  let li := calculate_weighted_length [12354] in
  weight_1 li + weight_2 li + urls li = 1 /\ weighted_length li = 2.
Proof. vm_compute. auto. Qed.

(** C5.  The weighted length of prefixes [s[:j]] is non-decreasing in [j],
    also where a prefix starts or extends a URL match. *)
Theorem weighted_length_prefix_monotone (s : text) (j k : nat)
  (Hjk : (j <= k)%nat) (Hk : (k <= length s)%nat) :
  get_weighted_length (firstn j s) <= get_weighted_length (firstn k s).
Proof.
  rewrite <- (firstn_skipn j (firstn k s)), firstn_firstn.
  replace (Nat.min j k) with j by lia. apply weight_app.
Qed.

Lemma weighted_length_prefix_monotone_witness :
  get_weighted_length (firstn 7 (http_scheme ++ [97]))
  <= get_weighted_length (firstn 8 (http_scheme ++ [97])).
Proof. apply weighted_length_prefix_monotone; simpl; lia. Defined.

(** [normalize_text] is idempotent on every input whose normalised form is
    already in NFC: the steps after NFC are idempotent (see [cleanup_idem]);
    only a second NFC can change the text. *)
Lemma normalize_idem_of_nfc_stable (u : unicode_db) (x : text)
  (Hnfc : nfc u (normalize_text u x) = normalize_text u x) :
  normalize_text u (normalize_text u x) = normalize_text u x.
Proof.
  pose proof (normalize_text_cases u x) as Hc.
  remember (normalize_text u x) as z eqn:Hz. clear Hz.
  destruct z as [|a z']; [reflexivity|].
  change (normalize_text u (a :: z'))
    with (strip (collapse_ws (remove_invisible_chars u (nfc u (a :: z'))))).
  rewrite Hnfc. destruct Hc as [Hc|Hc]; [discriminate|].
  rewrite Hc. exact (cleanup_idem u (nfc u x)).
Qed.

(** C6 (code bug).  [normalize_text] is documented to normalise to NFC,
    but it removes the invisible and control characters after NFC, and a
    removed character may have kept a base letter apart from a combining
    mark.  For "e" + ZWSP + U+0301 NFC leaves the text unchanged (the
    zero-width space, a starter, blocks the acute accent from the e), the
    removal gives "e" + U+0301, which is not in NFC, and a second
    normalisation composes it to "é" (U+00E9).  The steps after NFC are
    idempotent on every input, so [normalize_text] is idempotent exactly
    where its result is in NFC.  The hypotheses are what Unicode's NFC
    does on the two texts, and that the letters and the mark are not of
    category C. *)
Theorem normalize_text_leaves_non_nfc (u : unicode_db)
  (Hnfc1 : nfc u e_zwsp_acute = e_zwsp_acute)
  (Hnfc2 : nfc u [101; 769] = [233])
  (HC : forall c, In c [101; 769; 233] -> category_is_C u c = false) :
  normalize_text u e_zwsp_acute = [101; 769] /\
  nfc u (normalize_text u e_zwsp_acute) <> normalize_text u e_zwsp_acute /\
  normalize_text u (normalize_text u e_zwsp_acute) = [233] /\
  (forall y, let w := strip (collapse_ws (remove_invisible_chars u y)) in
             strip (collapse_ws (remove_invisible_chars u w)) = w) /\
  (forall x, nfc u (normalize_text u x) = normalize_text u x ->
             normalize_text u (normalize_text u x) = normalize_text u x).
Proof.
  assert (E1 : normalize_text u e_zwsp_acute = [101; 769]).
  { rewrite (normalize_text_eval u _ e_zwsp_acute [101; 769; 233]) by eval_side.
    vm_compute. reflexivity. }
  assert (E2 : normalize_text u [101; 769] = [233]).
  { rewrite (normalize_text_eval u _ [233] [101; 769; 233]) by eval_side.
    vm_compute. reflexivity. }
  rewrite E1, Hnfc2, E2.
  split; [reflexivity|]. split; [discriminate|]. split; [reflexivity|].
  split; [exact (cleanup_idem u)|exact (normalize_idem_of_nfc_stable u)].
Qed.

Lemma normalize_text_leaves_non_nfc_witness :
  nfc ucd_excerpt (normalize_text ucd_excerpt e_zwsp_acute)
    <> normalize_text ucd_excerpt e_zwsp_acute.
Proof.
  destruct (normalize_text_leaves_non_nfc ucd_excerpt) as (_ & H & _).
  - vm_compute. reflexivity.
  - vm_compute. reflexivity.
  - intros c Hc. repeat destruct Hc as [<-|Hc]; try reflexivity. contradiction.
  - exact H.
Defined.

(** C10.  The output of [normalize_text] has no newline, carriage return
    or tab: its only whitespace is the single space.  Hence
    [normalized_text.split('\n')] is the one-element list, the
    URL-on-its-own-line branch of [truncate_to_limit] is never taken, and a
    detected trailing URL is always re-attached after one space. *)
Theorem normalize_text_no_line_breaks (u : unicode_db) (s : text) :
  let n := normalize_text u s in
  (forall c, In c n -> is_space c = true -> c = 32) /\
  ~ In 10 n /\ ~ In 13 n /\ ~ In 9 n /\
  split_on 10 n = [n] /\
  (forall main_text trailing_url potential_url,
     detect_trailing_url n = Some (main_text, trailing_url, potential_url) ->
     trailing_url = 32 :: potential_url).
Proof.
  intro n.
  assert (Hsp : forall c, In c n -> is_space c = true -> c = 32)
    by apply normalize_text_spaces.
  assert (H10 : ~ In 10 n) by (intro H; specialize (Hsp 10 H eq_refl); discriminate).
  assert (Hsplit : split_on 10 n = [n]) by now apply split_on_absent.
  repeat split; try assumption.
  - intro H. specialize (Hsp 13 H eq_refl). discriminate.
  - intro H. specialize (Hsp 9 H eq_refl). discriminate.
  - intros main_text trailing_url potential_url.
    unfold detect_trailing_url. rewrite Hsplit. cbn [length Nat.leb].
    destruct (length (split_ws n)) as [|[|k]]; try (intro H; discriminate H).
    destruct (match_at (last (split_ws n) [])); [|intro H; discriminate H].
    intro H. injection H as _ <- <-. reflexivity.
Qed.

Lemma normalize_text_no_line_breaks_witness :
  split_on 10 (normalize_text ucd_excerpt kana_run_then_url_line)
    = [normalize_text ucd_excerpt kana_run_then_url_line] /\
  exists m, detect_trailing_url (normalize_text ucd_excerpt kana_run_then_url_line)
              = Some (m, 32 :: example_url_x, example_url_x).
Proof.
  destruct (normalize_text_no_line_breaks ucd_excerpt kana_run_then_url_line)
    as (_ & _ & _ & _ & Hsplit & Hdet).
  split; [exact Hsplit|].
  exists (repeat_char 12354 200). vm_compute. reflexivity.
Defined.

(** C8.  [validate_tweet_length] is total and its fields are related as
    documented; an input made of whitespace only (which NFC keeps
    whitespace-only, as Unicode's NFC does) normalises to the empty text
    and validates with weighted length 0. *)
Theorem validate_tweet_length_total (u : unicode_db) (s : text) (m : Z) :
  let r := validate_tweet_length u s m in
  normalized_text r = normalize_text u s /\
  v_weighted_length r = get_weighted_length (normalize_text u s) /\
  0 <= v_weighted_length r /\
  is_valid r = (v_weighted_length r <=? m) /\
  chars_over r = Z.max 0 (v_weighted_length r - m) /\
  max_length r = m /\
  (0 <= m -> forallb is_space s = true -> forallb is_space (nfc u s) = true ->
   normalized_text r = [] /\ v_weighted_length r = 0 /\
   is_valid r = true /\ chars_over r = 0).
Proof.
  intro r. unfold r, validate_tweet_length.
  cbn [normalized_text v_weighted_length is_valid chars_over max_length].
  do 2 (split; [reflexivity|]). split; [apply weight_nonneg|].
  do 3 (split; [reflexivity|]).
  intros Hm _ Hn. rewrite (normalize_text_all_space u s Hn). cbn.
  split; [reflexivity|]. split; [reflexivity|].
  split; [apply Z.leb_le; exact Hm|]. lia.
Qed.

Lemma validate_tweet_length_total_witness :
  let r := validate_tweet_length ucd_excerpt [32; 10; 9; 12288] 280 in
  normalized_text r = [] /\ v_weighted_length r = 0 /\
  is_valid r = true /\ chars_over r = 0.
Proof.
  destruct (validate_tweet_length_total ucd_excerpt [32; 10; 9; 12288] 280)
    as (_ & _ & _ & _ & _ & _ & H).
  apply H; [lia|reflexivity|vm_compute; reflexivity].
Defined.

(** C3 (amended).  [get_weighted_length] does not normalise: the zero-width
    space U+200B lies in [WEIGHT_1_RANGES] and weighs 1, so the two texts
    weigh 11 and 10.  The weighted length reported by
    [validate_tweet_length], which normalises first, is 10 for both.  The
    hypotheses are the Unicode facts used: both texts are in NFC and the
    characters of "AIニュース" are not of category C. *)
Theorem zero_width_space_weight (u : unicode_db)
  (Hnfc1 : nfc u ai_news_zwsp = ai_news_zwsp)
  (Hnfc2 : nfc u ai_news = ai_news)
  (HC : forall c, In c ai_news -> category_is_C u c = false) :
  get_weighted_length ai_news_zwsp = 11 /\
  get_weighted_length ai_news = 10 /\
  v_weighted_length (validate_tweet_length u ai_news_zwsp 280) = 10 /\
  v_weighted_length (validate_tweet_length u ai_news 280) = 10.
Proof.
  split; [reflexivity|]. split; [reflexivity|].
  unfold validate_tweet_length. cbn [v_weighted_length].
  rewrite (normalize_text_eval u ai_news_zwsp ai_news_zwsp ai_news),
          (normalize_text_eval u ai_news ai_news ai_news)
    by (try discriminate; try assumption; vm_compute; reflexivity).
  vm_compute. split; reflexivity.
Qed.

Lemma zero_width_space_weight_witness :
  v_weighted_length (validate_tweet_length ucd_excerpt ai_news_zwsp 280) =
  v_weighted_length (validate_tweet_length ucd_excerpt ai_news 280).
Proof.
  destruct (zero_width_space_weight ucd_excerpt) as (_ & _ & H1 & H2).
  - vm_compute. reflexivity.
  - vm_compute. reflexivity.
  - intros c Hc. repeat destruct Hc as [<-|Hc]; try reflexivity. contradiction.
  - rewrite H1, H2. reflexivity.
Defined.

(** C3 (counterexample).  [get_weighted_length] gives the two texts
    different values. *)
Lemma get_weighted_length_counts_zwsp :
  get_weighted_length ai_news_zwsp = 11 /\ get_weighted_length ai_news = 10.
Proof. vm_compute. auto. Qed.

(** C2 (code bug).  [truncate_to_limit] looks for a URL on its own last
    line and re-attaches it after a newline, but it runs on the normalised
    text, in which every newline has become a space.  For "あ" * 200 + "\n" +
    URL the URL is found as the last space-separated word instead, and the
    result is 127 times "あ" (weight 254 = 280 - 24 - 2), the ellipsis, one
    space and the full URL: the newline is lost.  For every input a
    detected trailing URL is one space and the URL, never a newline and
    the URL: the own-line branch is never taken.  The hypotheses are the
    Unicode facts used: NFC leaves both texts unchanged and none of their
    characters other than the newline and the space is of category C. *)
Theorem truncate_drops_url_line_break (u : unicode_db)
  (Hnfc1 : nfc u kana_run_then_url_line = kana_run_then_url_line)
  (Hnfc2 : nfc u (repeat_char 12354 200 ++ [32] ++ example_url_x)
           = repeat_char 12354 200 ++ [32] ++ example_url_x)
  (HC : forall c, In c (12354 :: example_url_x) -> category_is_C u c = false) :
  safe_truncate_post u kana_run_then_url_line 280
  = repeat_char 12354 127 ++ [8230; 32] ++ example_url_x /\
  (forall s, match detect_trailing_url (normalize_text u s) with
             | Some (_, trailing_url, potential_url) => trailing_url = 32 :: potential_url
             | None => True
             end).
Proof.
  split.
  - assert (E1 : normalize_text u kana_run_then_url_line
                 = repeat_char 12354 200 ++ [32] ++ example_url_x).
    { rewrite (normalize_text_eval u _ kana_run_then_url_line (12354 :: example_url_x))
        by eval_side.
      vm_compute. reflexivity. }
    assert (E2 : normalize_text u (repeat_char 12354 200 ++ [32] ++ example_url_x)
                 = repeat_char 12354 200 ++ [32] ++ example_url_x).
    { rewrite (normalize_text_eval u _ (repeat_char 12354 200 ++ [32] ++ example_url_x)
                 (12354 :: example_url_x)) by eval_side.
      vm_compute. reflexivity. }
    unfold safe_truncate_post, truncate_to_limit. rewrite E1.
    unfold validate_tweet_length. rewrite E2.
    vm_compute. reflexivity.
  - intro s.
    destruct (detect_trailing_url (normalize_text u s))
      as [[[main_text trailing_url] potential_url]|] eqn:Ed; [|exact I].
    exact (proj1 (detect_trailing_url_normalized u s _ _ _ Ed)).
Qed.

Lemma truncate_drops_url_line_break_witness :
  safe_truncate_post ucd_excerpt kana_run_then_url_line 280
  = repeat_char 12354 127 ++ [8230; 32] ++ example_url_x.
Proof.
  destruct (truncate_drops_url_line_break ucd_excerpt) as [H _].
  - vm_compute. reflexivity.
  - vm_compute. reflexivity.
  - intros c Hc. repeat destruct Hc as [<-|Hc]; try reflexivity. contradiction.
  - exact H.
Defined.

(** C7 (code bug).  [truncate_to_limit] passes the already normalised text
    to [validate_tweet_length], which normalises it a second time.  For
    "あ" * 139 + "é" + ZWSP + U+0323 the normalised text "あ" * 139 + "é" +
    U+0323 weighs 280, within the limit, but its second normalisation
    "あ" * 139 + "ẹ" (U+1EB9) + U+0301 weighs 281, so the text is truncated
    instead of returned unchanged.  The hypotheses are what Unicode's NFC
    does on the two texts, and that their letters and marks are not of
    category C. *)
Theorem truncate_renormalises_valid_text (u : unicode_db)
  (Hnfc1 : nfc u kana_e_acute_zwsp_dot_below = kana_e_acute_zwsp_dot_below)
  (Hnfc2 : nfc u (repeat_char 12354 139 ++ [233; 803])
           = repeat_char 12354 139 ++ [7865; 769])
  (HC : forall c, In c [12354; 233; 803; 7865; 769] -> category_is_C u c = false) :
  get_weighted_length (normalize_text u kana_e_acute_zwsp_dot_below) = 280 /\
  truncate_to_limit u kana_e_acute_zwsp_dot_below 280 default_ellipsis
  = {| t_text := repeat_char 12354 139 ++ [8230]; was_truncated := true;
       final_length := 280 |}.
Proof.
  assert (E1 : normalize_text u kana_e_acute_zwsp_dot_below
               = repeat_char 12354 139 ++ [233; 803]).
  { rewrite (normalize_text_eval u _ kana_e_acute_zwsp_dot_below
               [12354; 233; 803; 7865; 769]) by eval_side.
    vm_compute. reflexivity. }
  assert (E2 : normalize_text u (repeat_char 12354 139 ++ [233; 803])
               = repeat_char 12354 139 ++ [7865; 769]).
  { rewrite (normalize_text_eval u _ (repeat_char 12354 139 ++ [7865; 769])
               [12354; 233; 803; 7865; 769]) by eval_side.
    vm_compute. reflexivity. }
  rewrite E1. split; [vm_compute; reflexivity|].
  unfold truncate_to_limit. rewrite E1.
  unfold validate_tweet_length. rewrite E2.
  vm_compute. reflexivity.
Qed.

Lemma truncate_renormalises_valid_text_witness :
  truncate_to_limit ucd_excerpt kana_e_acute_zwsp_dot_below 280 default_ellipsis
  = {| t_text := repeat_char 12354 139 ++ [8230]; was_truncated := true;
       final_length := 280 |}.
Proof.
  apply truncate_renormalises_valid_text.
  - vm_compute. reflexivity.
  - vm_compute. reflexivity.
  - intros c Hc. repeat destruct Hc as [<-|Hc]; try reflexivity. contradiction.
Defined.

(** C1 (code bug).  The binary search bounds the weight of the prefix
    alone; appending the ellipsis can change how the URL pattern matches.
    For "A" * 271 + "http://xyz" and limit 280 the longest prefix of weight
    at most 278 is "A" * 271 + "http://" (the scheme alone is no URL and
    weighs 7); the ellipsis U+2026 is a URL character, so "http://…" is a
    URL of weight 23 and the returned text weighs 294 > 280, although no
    URL of the input is over budget.  The hypotheses: NFC leaves the ASCII
    input unchanged and its characters are not of category C. *)
Theorem truncate_ellipsis_completes_url (u : unicode_db)
  (Hnfc : nfc u ascii_then_scheme_word = ascii_then_scheme_word)
  (HC : forall c, In c [65; 104; 116; 112; 58; 47; 120; 121; 122] ->
        category_is_C u c = false) :
  safe_truncate_post u ascii_then_scheme_word 280
    = repeat_char 65 271 ++ http_scheme ++ [8230] /\
  get_weighted_length (safe_truncate_post u ascii_then_scheme_word 280) = 294.
Proof.
  assert (E1 : normalize_text u ascii_then_scheme_word = ascii_then_scheme_word).
  { rewrite (normalize_text_eval u _ ascii_then_scheme_word
               [65; 104; 116; 112; 58; 47; 120; 121; 122]) by eval_side.
    vm_compute. reflexivity. }
  unfold safe_truncate_post, truncate_to_limit. rewrite E1.
  unfold validate_tweet_length. rewrite E1.
  vm_compute. split; reflexivity.
Qed.

Lemma truncate_ellipsis_completes_url_witness :
  get_weighted_length (safe_truncate_post ucd_excerpt ascii_then_scheme_word 280) = 294.
Proof.
  apply truncate_ellipsis_completes_url.
  - vm_compute. reflexivity.
  - intros c Hc. repeat destruct Hc as [<-|Hc]; try reflexivity. contradiction.
Defined.

(** The same postcondition fails on the already-valid path: the text is
    checked after a second normalisation but returned after one.  For
    "A" * 279 + "e" + ZWSP + U+0301 the returned "A" * 279 + "e" + U+0301
    weighs 281 > 280, while its renormalisation "A" * 279 + "é" weighs 280. *)
Example truncate_valid_path_overweight :
  let r := truncate_to_limit ucd_excerpt ascii_then_e_zwsp_acute 280 default_ellipsis in
  t_text r = repeat_char 65 279 ++ [101; 769] /\ was_truncated r = false /\
  final_length r = 280 /\ get_weighted_length (t_text r) = 281.
Proof. vm_compute. auto. Qed.

(** * Further properties of the module and of its callers *)

(** ** The URL scan *)

Section UrlScan.

Lemma is_prefix_firstn (p s : text) (n : nat) :
  (length p <= n)%nat -> is_prefix p (firstn n s) = is_prefix p s.
Proof.
  revert s n. induction p as [|x p IH]; intros s n Hn; [reflexivity|].
  destruct n as [|n]; [simpl in Hn; lia|].
  destruct s as [|y s]; [reflexivity|]. simpl.
  rewrite IH; [reflexivity|simpl in Hn; lia].
Qed.

Lemma url_run_firstn (l : text) (n : nat) : url_run (firstn n l) = Nat.min n (url_run l).
Proof.
  revert n. induction l as [|c l IH]; intros [|n]; simpl; try reflexivity.
  destruct (url_char c); [|reflexivity]. rewrite IH. reflexivity.
Qed.

(** A match of the pattern is a whole match of the text it covers. *)
Lemma match_at_firstn (s : text) (n : nat) :
  match_at s = Some n -> match_at (firstn n s) = Some n.
Proof.
  intro H. pose proof (match_at_bound _ _ H) as Hb. revert H.
  unfold match_at.
  assert (Hs : scheme_len (firstn n s) = scheme_len s)
    by (unfold scheme_len; rewrite !is_prefix_firstn by (simpl; lia); reflexivity).
  rewrite Hs. destruct (scheme_len s) as [k|] eqn:Ek; [|discriminate].
  destruct (Nat.eqb_spec (url_run (skipn k s)) 0) as [E|E]; [discriminate|].
  intro H. injection H as <-.
  rewrite skipn_firstn_comm, url_run_firstn.
  replace (k + url_run (skipn k s) - k)%nat with (url_run (skipn k s)) by lia.
  rewrite Nat.min_id.
  destruct (Nat.eqb_spec (url_run (skipn k s)) 0); [contradiction|reflexivity].
Qed.

Lemma url_scan_parts (f : nat) (s : text) :
  (length s <= f)%nat ->
  (length (snd (url_scan f s)) + length (concat (fst (url_scan f s))) = length s)%nat /\
  (forall x, In x (fst (url_scan f s)) -> match_at x = Some (length x)).
Proof.
  revert s. induction f as [|f IH]; intros s Hs.
  - destruct s; [|simpl in Hs; lia]. simpl. split; [reflexivity|contradiction].
  - destruct s as [|c s]; [simpl; split; [reflexivity|contradiction]|].
    simpl url_scan. destruct (match_at (c :: s)) as [n|] eqn:E.
    + pose proof (match_at_bound _ _ E) as Hn.
      assert (Hl : length (skipn n (c :: s)) = (length (c :: s) - n)%nat)
        by apply length_skipn.
      destruct (IH (skipn n (c :: s))) as [IH1 IH2]; [rewrite Hl; cbn [length] in *; lia|].
      destruct (url_scan f (skipn n (c :: s))) as [us rest] eqn:Es.
      simpl fst in *; simpl snd in *. split.
      * cbn [concat]. rewrite length_app, length_firstn. rewrite Hl in IH1. lia.
      * intros x [<-|Hx]; [|now apply IH2].
        rewrite length_firstn. replace (Nat.min n (length (c :: s))) with n by lia.
        now apply match_at_firstn.
    + destruct (IH s) as [IH1 IH2]; [simpl in Hs; lia|].
      destruct (url_scan f s) as [us rest]. simpl fst in *; simpl snd in *.
      split; [simpl; lia|exact IH2].
Qed.

Lemma count_weights_total (s : text) (w1 w2 a b : Z) :
  count_weights s w1 w2 = (a, b) -> a + b = w1 + w2 + Z.of_nat (length s).
Proof.
  revert w1 w2. induction s as [|c s IH]; intros w1 w2; simpl.
  - intro H. injection H as -> ->. lia.
  - destruct (get_character_weight c =? 1); intro H; apply IH in H; lia.
Qed.

(** Whitespace stops both the scheme and the class run of the pattern. *)
Lemma is_prefix_app_stop (p a b : text) (c : Z) :
  ~ In c p -> is_prefix p (a ++ c :: b) = is_prefix p a.
Proof.
  revert a. induction p as [|x p IH]; intros a Hc; [reflexivity|].
  destruct a as [|y a]; simpl.
  - destruct (Z.eqb_spec x c) as [->|]; [exfalso; apply Hc; now left|reflexivity].
  - rewrite IH; [reflexivity|]. intro H. apply Hc. now right.
Qed.

Lemma url_run_app_stop (l b : text) (c : Z) :
  url_char c = false -> url_run (l ++ c :: b) = url_run l.
Proof.
  intro Hc. induction l as [|x l IH]; simpl; [now rewrite Hc|].
  now rewrite IH.
Qed.

Lemma space_not_in_scheme (c : Z) :
  is_space c = true -> ~ In c https_scheme /\ ~ In c http_scheme.
Proof.
  intro Hc. split; intro H; repeat destruct H as [<-|H];
    solve [discriminate Hc | contradiction].
Qed.

Lemma match_at_app_space (a b : text) (c : Z) :
  is_space c = true -> match_at (a ++ c :: b) = match_at a.
Proof.
  intro Hc. destruct (space_not_in_scheme c Hc) as [H1 H2].
  assert (Hu : url_char c = false) by (unfold url_char; now rewrite Hc).
  unfold match_at.
  assert (Hs : scheme_len (a ++ c :: b) = scheme_len a)
    by (unfold scheme_len; now rewrite !is_prefix_app_stop).
  rewrite Hs. destruct (scheme_len a) as [k|] eqn:Ek; [|reflexivity].
  apply scheme_len_bound in Ek.
  rewrite skipn_app. replace (k - length a)%nat with 0%nat by lia.
  change (skipn 0 (c :: b)) with (c :: b).
  rewrite url_run_app_stop by exact Hu. reflexivity.
Qed.

Lemma url_scan_cons (f : nat) (c : Z) (s : text) :
  url_scan (S f) (c :: s) =
  match match_at (c :: s) with
  | Some n => let '(us, rest) := url_scan f (skipn n (c :: s)) in (firstn n (c :: s) :: us, rest)
  | None => let '(us, rest) := url_scan f s in (us, c :: rest)
  end.
Proof. reflexivity. Qed.

Lemma url_scan_app_space (f : nat) (a b : text) (c : Z) :
  is_space c = true -> (length (a ++ c :: b) <= f)%nat ->
  url_scan f (a ++ c :: b) =
    (fst (url_scan f a) ++ fst (url_scan f b), snd (url_scan f a) ++ c :: snd (url_scan f b)).
Proof.
  intro Hc. revert a. induction f as [|f IH]; intros a Hf.
  - rewrite length_app in Hf. simpl in Hf. lia.
  - rewrite length_app in Hf. cbn [length] in Hf.
    destruct a as [|x a].
    + cbn [app].
      assert (Hm : match_at (c :: b) = None) by exact (match_at_app_space [] b c Hc).
      rewrite (url_scan_cons f c b), Hm.
      rewrite (url_scan_fuel f (S f) b) by lia.
      destruct (url_scan (S f) b). reflexivity.
    + assert (Hm : match_at (x :: (a ++ c :: b)) = match_at (x :: a))
        by exact (match_at_app_space (x :: a) b c Hc).
      change ((x :: a) ++ c :: b) with (x :: (a ++ c :: b)).
      rewrite (url_scan_cons f x (a ++ c :: b)), (url_scan_cons f x a), Hm.
      change (x :: (a ++ c :: b)) with ((x :: a) ++ c :: b).
      destruct (match_at (x :: a)) as [n|] eqn:E.
      * pose proof (match_at_bound _ _ E) as Hn.
        rewrite firstn_app, skipn_app.
        replace (n - length (x :: a))%nat with 0%nat by lia.
        rewrite firstn_O, app_nil_r. change (skipn 0 (c :: b)) with (c :: b).
        rewrite IH by (rewrite length_app, length_skipn; cbn [length] in *; lia).
        rewrite (url_scan_fuel f (S f) b) by (cbn [length] in *; lia).
        destruct (url_scan f (skipn n (x :: a))), (url_scan (S f) b). reflexivity.
      * rewrite IH by (rewrite length_app; cbn [length] in *; lia).
        rewrite (url_scan_fuel f (S f) b) by (cbn [length] in *; lia).
        destruct (url_scan f a), (url_scan (S f) b). reflexivity.
Qed.

Lemma sum_weights_app (a b : text) : sum_weights (a ++ b) = sum_weights a + sum_weights b.
Proof. induction a as [|c a IH]; simpl; lia. Qed.

Lemma weight_by_scan (f : nat) (s : text) :
  (length s <= f)%nat ->
  get_weighted_length s
  = sum_weights (snd (url_scan f s)) + 23 * Z.of_nat (length (fst (url_scan f s))).
Proof.
  intro Hf. rewrite get_weighted_length_scan. unfold scan_weight.
  rewrite (url_scan_fuel (length s) f s) by lia.
  destruct (url_scan f s). reflexivity.
Qed.

Lemma is_prefix_in (p s : text) (x : Z) : is_prefix p s = true -> In x p -> In x s.
Proof.
  revert s. induction p as [|y p IH]; intros [|z s]; simpl; try discriminate; try tauto.
  intros H [<-|Hx]; apply andb_prop in H as [H1 H2].
  - apply Z.eqb_eq in H1. now left.
  - right. now apply (IH s).
Qed.

Lemma match_at_colon (s : text) (n : nat) : match_at s = Some n -> In 58 s.
Proof.
  unfold match_at, scheme_len.
  destruct (is_prefix https_scheme s) eqn:E1.
  - intros _. apply (is_prefix_in _ _ _ E1). simpl. tauto.
  - destruct (is_prefix http_scheme s) eqn:E2; [|discriminate].
    intros _. apply (is_prefix_in _ _ _ E2). simpl. tauto.
Qed.

Lemma url_scan_no_colon (f : nat) (s : text) : ~ In 58 s -> url_scan f s = ([], s).
Proof.
  revert s. induction f as [|f IH]; intros s Hs; [reflexivity|].
  destruct s as [|c s]; [reflexivity|]. simpl.
  destruct (match_at (c :: s)) as [n|] eqn:E.
  - exfalso. apply Hs. now apply (match_at_colon _ n).
  - rewrite IH; [reflexivity|]. intro H. apply Hs. now right.
Qed.

End UrlScan.

(** ** Removal of invisible characters as one filter *)

Section Removal.

Lemma filter_filter_Z (f g : Z -> bool) (s : text) :
  filter f (filter g s) = filter (fun c => g c && f c) s.
Proof.
  induction s as [|c s IH]; simpl; [reflexivity|].
  destruct (g c); simpl; [destruct (f c)|]; simpl; now rewrite IH.
Qed.

Lemma fold_replace_filter (L : list Z) (s : text) :
  fold_left (fun t ch => replace_by_empty ch t) L s
  = filter (fun c => negb (existsb (Z.eqb c) L)) s.
Proof.
  revert s. induction L as [|ch L IH]; intro s; simpl.
  - symmetry. apply filter_fix. intros; reflexivity.
  - rewrite IH. unfold replace_by_empty. rewrite filter_filter_Z.
    apply filter_ext. intro c. destruct (c =? ch); reflexivity.
Qed.

Lemma remove_invisible_filter (u : unicode_db) (s : text) :
  remove_invisible_chars u s
  = filter (fun c => negb (existsb (Z.eqb c) INVISIBLE_CHARS) && keeps_char u c) s.
Proof.
  unfold remove_invisible_chars, drop_invisible_chars.
  destruct s as [|d s]; [reflexivity|].
  rewrite fold_replace_filter, filter_filter_Z. reflexivity.
Qed.

Lemma keeps_char_not_space (u : unicode_db) (c : Z) :
  keeps_char u c = true -> is_space c = false -> category_is_C u c = false.
Proof.
  unfold keeps_char. intros H Hs.
  destruct (existsb (Z.eqb c) [10; 13; 9; 32]) eqn:E.
  - apply existsb_exists in E as [d [Hd Hcd]]. apply Z.eqb_eq in Hcd. subst d.
    exfalso. repeat destruct Hd as [<-|Hd]; solve [discriminate Hs | contradiction].
  - rewrite andb_true_r in H. now apply negb_true_iff in H.
Qed.

End Removal.

(** ** Shape of a normalised text *)

Section NormalisedShape.

Lemma lstrip_head (s t : text) (c : Z) : lstrip s = c :: t -> is_space c = false.
Proof.
  destruct (lstrip_shape s) as [H|(c' & t' & H & Hs)]; rewrite H; [discriminate|].
  intro E. injection E as <- _. exact Hs.
Qed.

Lemma rstrip_last (s t : text) (c : Z) : rstrip s = t ++ [c] -> is_space c = false.
Proof.
  unfold rstrip. intro H. apply (f_equal (@rev Z)) in H.
  rewrite rev_involutive, rev_app_distr in H. simpl in H.
  exact (lstrip_head _ _ _ H).
Qed.

Lemma strip_head (s t : text) (c : Z) : strip s = c :: t -> is_space c = false.
Proof.
  unfold strip. intro H. destruct (rstrip_prefix (lstrip s)) as [x Hx].
  rewrite H in Hx. simpl in Hx. exact (lstrip_head _ _ _ Hx).
Qed.

Lemma strip_last (s t : text) (c : Z) : strip s = t ++ [c] -> is_space c = false.
Proof. unfold strip. apply rstrip_last. Qed.

Lemma ws_ok_adjacent (b : bool) (a r : text) (x y : Z) :
  ws_ok b (a ++ x :: y :: r) = true -> is_space x = false \/ is_space y = false.
Proof.
  revert b. induction a as [|d a IH]; intro b.
  - intro H. destruct (is_space x) eqn:Ex; [|now left].
    destruct (is_space y) eqn:Ey; [|now right]. exfalso.
    cbn [app ws_ok] in H. rewrite Ex, Ey in H. cbn [negb andb] in H.
    rewrite andb_false_r in H. discriminate.
  - cbn [app ws_ok]. destruct (is_space d).
    + intro H. apply andb_prop in H as [_ H]. exact (IH true H).
    + exact (IH false).
Qed.

Lemma normalize_text_ws (u : unicode_db) (s : text) :
  ws_ok false (normalize_text u s) = true /\ strip (normalize_text u s) = normalize_text u s.
Proof.
  destruct (normalize_text_cases u s) as [E|E]; rewrite E; [split; reflexivity|].
  split; [apply ws_ok_strip, ws_ok_collapse|apply strip_idem].
Qed.

(** [" ".join(s.split())] gives back a text with single inner spaces and
    no whitespace at either end. *)
Lemma join_split_ws_go (cur s : text) :
  ws_ok false s = true ->
  (forall t x, s = t ++ [x] -> is_space x = false) ->
  (forall x t, s = x :: t -> is_space x = true -> cur <> []) ->
  join [32] (split_ws_go cur s) = rev cur ++ s.
Proof.
  revert cur. induction s as [|c s IH]; intros cur Hok Hlast Hhead.
  - destruct cur as [|z cur]; [reflexivity|]. simpl split_ws_go.
    cbn [join]. now rewrite app_nil_r.
  - cbn [split_ws_go]. destruct (is_space c) eqn:Ec.
    + pose proof (Hhead c s eq_refl Ec) as Hcur.
      cbn [ws_ok] in Hok. rewrite Ec in Hok.
      apply andb_prop in Hok as [Hc Hok]. apply andb_prop in Hc as [_ Hc].
      apply Z.eqb_eq in Hc. subst c.
      destruct s as [|d s'].
      * exfalso. specialize (Hlast [] 32 eq_refl). discriminate Hlast.
      * assert (Ed : is_space d = false).
        { cbn [ws_ok] in Hok. destruct (is_space d); [discriminate|reflexivity]. }
        assert (IHs : join [32] (split_ws_go [] (d :: s')) = d :: s').
        { apply IH.
          - apply ws_ok_weaken, Hok.
          - intros t x Ht. apply (Hlast (32 :: t) x). rewrite Ht. reflexivity.
          - intros x t Ht Hx. injection Ht as -> _. rewrite Ed in Hx. discriminate. }
        destruct cur as [|z cur]; [contradiction|].
        destruct (split_ws_go [] (d :: s')) as [|w ws] eqn:Ew; [discriminate IHs|].
        cbn [join] in IHs |- *. rewrite IHs. reflexivity.
    + cbn [ws_ok] in Hok. rewrite Ec in Hok.
      rewrite IH.
      * cbn [rev]. rewrite <- app_assoc. reflexivity.
      * exact Hok.
      * intros t x Ht. apply (Hlast (c :: t) x). rewrite Ht. reflexivity.
      * intros. discriminate.
Qed.

Lemma join_removelast (sep : text) (ws : list text) :
  (2 <= length ws)%nat -> join sep (removelast ws) ++ sep ++ last ws [] = join sep ws.
Proof.
  induction ws as [|w ws IH]; intro Hl; [simpl in Hl; lia|].
  destruct ws as [|w2 ws]; [simpl in Hl; lia|].
  destruct ws as [|w3 ws]; [reflexivity|].
  change (removelast (w :: w2 :: w3 :: ws)) with (w :: removelast (w2 :: w3 :: ws)).
  change (last (w :: w2 :: w3 :: ws) []) with (last (w2 :: w3 :: ws) []).
  assert (Hr : removelast (w2 :: w3 :: ws) <> []).
  { change (removelast (w2 :: w3 :: ws)) with (w2 :: removelast (w3 :: ws)). discriminate. }
  destruct (removelast (w2 :: w3 :: ws)) as [|r rs] eqn:Er; [contradiction|].
  change (join sep (w :: r :: rs)) with (w ++ sep ++ join sep (r :: rs)).
  rewrite <- !app_assoc, (IH ltac:(simpl; lia)). reflexivity.
Qed.

(** What [detect_trailing_url] finds in a normalised text: the main text
    and the trailing URL with its separating space make up the whole text. *)
Lemma detect_split (u : unicode_db) (s main_text trailing_url potential_url : text) :
  detect_trailing_url (normalize_text u s) = Some (main_text, trailing_url, potential_url) ->
  main_text ++ trailing_url = normalize_text u s /\
  trailing_url = 32 :: potential_url /\
  (forall c, In c potential_url -> is_space c = false) /\
  exists k, match_at potential_url = Some k.
Proof.
  destruct (normalize_text_ws u s) as [Hok Hstrip].
  set (n := normalize_text u s) in *.
  assert (H10 : ~ In 10 n)
    by (intro H; pose proof (normalize_text_spaces u s 10 H eq_refl); discriminate).
  unfold detect_trailing_url. rewrite (split_on_absent 10 n H10). cbn [length Nat.leb].
  destruct (length (split_ws n)) as [|[|k]] eqn:Ek; try (intro H; discriminate H).
  destruct (match_at (last (split_ws n) [])) as [m|] eqn:Em; [|intro H; discriminate H].
  intro H. injection H as <- <- <-.
  assert (Hne : split_ws n <> []) by (intro E; rewrite E in Ek; discriminate).
  split; [|split; [reflexivity|split; [|now exists m]]].
  - change (32 :: last (split_ws n) []) with ([32] ++ last (split_ws n) []).
    rewrite join_removelast by lia.
    unfold split_ws. rewrite join_split_ws_go; [reflexivity|exact Hok| |].
    + intros t x Ht. rewrite <- Hstrip in Ht. exact (strip_last _ _ _ Ht).
    + intros x t Ht Hx. rewrite <- Hstrip in Ht. rewrite (strip_head _ _ _ Ht) in Hx.
      discriminate.
  - intros c Hc.
    apply (split_ws_go_no_space [] n (last (split_ws n) [])); [easy| |exact Hc].
    now apply last_in_list.
Qed.

End NormalisedShape.

(** ** The binary search of [truncate_to_limit] *)

Section BinarySearch.

Lemma weight_firstn_mono (s : text) (j k : nat) :
  (j <= k)%nat -> get_weighted_length (firstn j s) <= get_weighted_length (firstn k s).
Proof.
  intro H. rewrite <- (firstn_skipn j (firstn k s)), firstn_firstn.
  replace (Nat.min j k) with j by lia. apply weight_app.
Qed.

Lemma binary_search_step (f : nat) (s : text) (target left right best : Z) :
  binary_search (S f) s target left right best =
  if left <=? right then
    let mid := (left + right) / 2 in
    if get_weighted_length (firstn (Z.to_nat mid) s) <=? target
    then binary_search f s target (mid + 1) right mid
    else binary_search f s target left (mid - 1) best
  else best.
Proof. reflexivity. Qed.

Lemma binary_search_spec (s : text) (target : Z) (fuel : nat) :
  forall left right best,
  0 <= left -> 0 <= best <= Z.of_nat (length s) -> right <= Z.of_nat (length s) ->
  left <= best + 1 ->
  get_weighted_length (firstn (Z.to_nat best) s) <= target ->
  (forall k, right < k <= Z.of_nat (length s) ->
     target < get_weighted_length (firstn (Z.to_nat k) s)) ->
  right - left + 1 <= Z.of_nat fuel ->
  let r := binary_search fuel s target left right best in
  (0 <= r <= Z.of_nat (length s)) /\
  get_weighted_length (firstn (Z.to_nat r) s) <= target /\
  (forall k, r < k <= Z.of_nat (length s) ->
     target < get_weighted_length (firstn (Z.to_nat k) s)).
Proof.
  induction fuel as [|f IH]; intros left right best H0 Hb Hr Hlb Hbest Hup Hf; cbv zeta.
  - change (binary_search 0 s target left right best) with best.
    split; [exact Hb|]. split; [exact Hbest|]. intros k Hk. apply Hup. lia.
  - rewrite binary_search_step.
    destruct (left <=? right) eqn:Elr.
    + apply Z.leb_le in Elr. cbv beta iota zeta.
      assert (Hmid : left <= (left + right) / 2 <= right).
      { pose proof (Z.div_mod (left + right) 2 ltac:(lia)) as Hd.
        pose proof (Z.mod_pos_bound (left + right) 2 ltac:(lia)) as Hm. lia. }
      destruct (get_weighted_length (firstn (Z.to_nat ((left + right) / 2)) s) <=? target)
        eqn:Et.
      * apply Z.leb_le in Et. apply IH; try lia. exact Hup.
      * apply Z.leb_gt in Et. apply IH; try lia.
        intros k Hk. destruct (Z.le_gt_cases k right) as [Hkr|Hkr]; [|apply Hup; lia].
        pose proof (weight_firstn_mono s (Z.to_nat ((left + right) / 2)) (Z.to_nat k)
                      ltac:(lia)). lia.
    + apply Z.leb_gt in Elr.
      split; [exact Hb|]. split; [exact Hbest|]. intros k Hk. apply Hup. lia.
Qed.

Lemma best_prefix_spec (s : text) (target : Z) :
  0 <= target ->
  let k := best_prefix s target in
  (0 <= k <= Z.of_nat (length s)) /\
  get_weighted_length (firstn (Z.to_nat k) s) <= target /\
  (forall j, k < j <= Z.of_nat (length s) ->
     target < get_weighted_length (firstn (Z.to_nat j) s)).
Proof.
  intro Ht. unfold best_prefix. apply binary_search_spec; try lia.
  simpl. rewrite weight_nil. exact Ht.
Qed.

End BinarySearch.

(** ** Truncation *)

Section Truncation.

Lemma rstrip_firstn_prefix (k : nat) (t : text) :
  exists rest, t = rstrip (firstn k t) ++ rest.
Proof.
  destruct (rstrip_prefix (firstn k t)) as [x Hx].
  exists (x ++ skipn k t). rewrite app_assoc, <- Hx, firstn_skipn. reflexivity.
Qed.

Lemma weight_rstrip_firstn (k : nat) (t : text) :
  get_weighted_length (rstrip (firstn k t)) <= get_weighted_length (firstn k t).
Proof.
  destruct (rstrip_prefix (firstn k t)) as [x Hx].
  rewrite Hx at 2. apply weight_app.
Qed.

Lemma best_lead_weight (t : text) (target : Z) :
  0 <= target ->
  get_weighted_length (rstrip (firstn (Z.to_nat (best_prefix t target)) t)) <= target.
Proof.
  intro Ht. destruct (best_prefix_spec t target Ht) as (_ & H & _).
  pose proof (weight_rstrip_firstn (Z.to_nat (best_prefix t target)) t). lia.
Qed.

End Truncation.

(** ** The callers *)

Section Callers.

Lemma weight_whole_url (url : text) :
  match_at url = Some (length url) -> get_weighted_length url = 23.
Proof.
  destruct url as [|c t]; [discriminate|]. intro H.
  rewrite weight_cons, H, skipn_all, weight_nil. reflexivity.
Qed.

Lemma weight_newline_url (url : text) :
  match_at url = Some (length url) -> get_weighted_length (10 :: url) = 24.
Proof.
  intro H. rewrite weight_cons.
  assert (E : match_at (10 :: url) = None) by reflexivity.
  rewrite E, (weight_whole_url url H). reflexivity.
Qed.

Lemma first_paragraph_some (rest : list text) (p : text) :
  first_paragraph rest = Some p ->
  exists l, In l rest /\ is_paragraph_line l = true /\ p = strip l.
Proof.
  induction rest as [|l rest IH]; simpl; [discriminate|].
  destruct (is_paragraph_line l) eqn:E.
  - intro H. injection H as <-. exists l. auto.
  - intro H. destruct (IH H) as (l' & H1 & H2 & H3). exists l'. auto.
Qed.

Lemma headline_paragraphs_spec (lines : list text) :
  Nat.le (length (headline_paragraphs lines)) (length (filter (is_prefix [35; 32]) lines)) /\
  Forall (fun p => exists l, In l lines /\ is_paragraph_line l = true /\ p = strip l)
         (headline_paragraphs lines).
Proof.
  induction lines as [|line rest [IH1 IH2]]; [split; [simpl; lia|constructor]|].
  cbn [headline_paragraphs filter].
  assert (W : Forall (fun p => exists l, In l (line :: rest) /\ is_paragraph_line l = true
                                         /\ p = strip l) (headline_paragraphs rest)).
  { eapply Forall_impl; [|exact IH2]. intros p (l & H1 & H2 & H3).
    exists l. split; [now right|auto]. }
  destruct (is_prefix [35; 32] line).
  - destruct (first_paragraph rest) as [p|] eqn:Ef.
    + cbn [length]. split; [lia|]. constructor; [|exact W].
      destruct (first_paragraph_some rest p Ef) as (l & H1 & H2 & H3).
      exists l. split; [now right|auto].
    + cbn [length]. split; [lia|exact W].
  - split; [exact IH1|exact W].
Qed.

(** [re.sub] of the markdown links. *)
Lemma lazy_until_paren_bound (s : text) (m : nat) :
  lazy_until_paren s = Some m -> (m < length s)%nat.
Proof.
  revert m. induction s as [|c s IH]; intro m; simpl; [discriminate|].
  destruct (c =? 41); [intro H; injection H as <-; lia|].
  destruct (c =? 10); [discriminate|].
  destruct (lazy_until_paren s) as [m'|]; [|discriminate].
  intro H. injection H as <-. specialize (IH m' eq_refl). lia.
Qed.

Lemma link_tail_bound (s : text) (n : nat) (g : text) :
  link_tail s = Some (n, g) -> (n <= length s)%nat.
Proof.
  revert n g. induction s as [|c s IH]; intros n g; simpl; [discriminate|].
  destruct s as [|d r].
  - destruct (c =? 10); [discriminate|]. simpl. discriminate.
  - destruct ((c =? 93) && (d =? 40)).
    + destruct (lazy_until_paren r) as [m|] eqn:Em.
      * intro H. injection H as <- _. apply lazy_until_paren_bound in Em. simpl. lia.
      * destruct (c =? 10); [discriminate|].
        destruct (link_tail (d :: r)) as [[n' g']|] eqn:E; [|discriminate].
        intro H. injection H as <- _. specialize (IH n' g' eq_refl). simpl in *. lia.
    + destruct (c =? 10); [discriminate|].
      destruct (link_tail (d :: r)) as [[n' g']|] eqn:E; [|discriminate].
      intro H. injection H as <- _. specialize (IH n' g' eq_refl). simpl in *. lia.
Qed.

Lemma replace_links_go_cons (f : nat) (c : Z) (s : text) :
  replace_links_go (S f) (c :: s) =
  match (if c =? 91 then link_tail s else None) with
  | Some (n, g) => g ++ replace_links_go f (skipn n s)
  | None => c :: replace_links_go f s
  end.
Proof. reflexivity. Qed.

Lemma replace_links_fuel (f1 f2 : nat) (s : text) :
  (length s <= f1)%nat -> (length s <= f2)%nat ->
  replace_links_go f1 s = replace_links_go f2 s.
Proof.
  revert f2 s. induction f1 as [|f1 IH]; intros f2 s H1 H2.
  - destruct s; [|simpl in H1; lia]. destruct f2; reflexivity.
  - destruct f2 as [|f2]; [destruct s; [reflexivity|simpl in H2; lia]|].
    destruct s as [|c s]; [reflexivity|].
    rewrite !replace_links_go_cons.
    destruct (if c =? 91 then link_tail s else None) as [[n g]|] eqn:E.
    + assert (Hn : (n <= length s)%nat).
      { destruct (c =? 91); [|discriminate]. exact (link_tail_bound _ _ _ E). }
      rewrite (IH f2); [reflexivity| |]; rewrite length_skipn; simpl in *; lia.
    + rewrite (IH f2); [reflexivity| |]; simpl in *; lia.
Qed.

Lemma replace_links_no_bracket (a x : text) (f : nat) :
  ~ In 91 a -> (length (a ++ x) <= f)%nat ->
  replace_links_go f (a ++ x) = a ++ replace_links_go (f - length a) x.
Proof.
  revert f. induction a as [|c a IH]; intros f Ha Hf.
  - simpl. now rewrite Nat.sub_0_r.
  - destruct f as [|f]; [simpl in Hf; lia|].
    change ((c :: a) ++ x) with (c :: (a ++ x)). rewrite replace_links_go_cons.
    destruct (Z.eqb_spec c 91) as [->|Hc]; [exfalso; apply Ha; now left|].
    rewrite IH; [reflexivity| |].
    + intro H. apply Ha. now right.
    + simpl in Hf. lia.
Qed.

Lemma lazy_until_paren_app (v b : text) :
  ~ In 10 v -> ~ In 41 v -> lazy_until_paren (v ++ 41 :: b) = Some (length v).
Proof.
  induction v as [|c v IH]; intros H10 H41; [reflexivity|].
  cbn [app lazy_until_paren].
  destruct (Z.eqb_spec c 41) as [->|_]; [exfalso; apply H41; now left|].
  destruct (Z.eqb_spec c 10) as [->|_]; [exfalso; apply H10; now left|].
  rewrite IH; [reflexivity| |]; intro H; [apply H10|apply H41]; now right.
Qed.

Lemma link_tail_app (t v b : text) :
  ~ In 10 t -> ~ In 93 t -> ~ In 10 v -> ~ In 41 v ->
  link_tail (t ++ 93 :: 40 :: v ++ 41 :: b) = Some (length t + (3 + length v), v)%nat.
Proof.
  intros Ht10 Ht93 Hv10 Hv41. induction t as [|c t IH].
  - cbn [app link_tail]. rewrite Z.eqb_refl. cbn [andb Z.eqb].
    rewrite (lazy_until_paren_app v b Hv10 Hv41).
    rewrite firstn_app, Nat.sub_diag, firstn_O, app_nil_r, firstn_all. reflexivity.
  - change ((c :: t) ++ 93 :: 40 :: v ++ 41 :: b)
      with (c :: (t ++ 93 :: 40 :: v ++ 41 :: b)).
    cbn [link_tail].
    destruct (Z.eqb_spec c 93) as [->|_]; [exfalso; apply Ht93; now left|].
    destruct (Z.eqb_spec c 10) as [->|_]; [exfalso; apply Ht10; now left|].
    assert (Hc : match t ++ 93 :: 40 :: v ++ 41 :: b with
                 | d :: r => if false && (d =? 40) then
                               match lazy_until_paren r with
                               | Some m => Some (3 + m, firstn m r)%nat
                               | None => None
                               end
                             else None
                 | [] => None
                 end = None)
      by (destruct (t ++ 93 :: 40 :: v ++ 41 :: b); reflexivity).
    rewrite Hc.
    rewrite IH; [reflexivity| |]; intro H; [apply Ht10|apply Ht93]; now right.
Qed.

Lemma skipn_app_exact (l r : text) (k : nat) : skipn (length l + k) (l ++ r) = skipn k r.
Proof. induction l as [|c l IH]; [reflexivity|]. exact IH. Qed.

End Callers.

(** ** Truncation with a trailing URL *)

(** C9 (amended).  The outcomes of [truncate_to_limit] on a text that is
    over the limit.  Let [lead] be the prefix of the main text found by the
    binary search, after [rstrip]; it is a prefix of the normalised text.
    In trailing-URL mode the trailing URL is one space and the URL, and
    the result is the bare URL, without ellipsis, when [available <= 0],
    and also when [available > 0] but [lead] is empty; otherwise it is the
    non-empty [lead], the ellipsis, the space and the URL.  Without a
    trailing URL the result is [lead] and the ellipsis. *)
Theorem truncate_to_limit_outcomes (u : unicode_db) (s : text) (m : Z) (ellipsis : text)
  (Hover : is_valid (validate_tweet_length u (normalize_text u s) m) = false) :
  let r := truncate_to_limit u s m ellipsis in
  let n := normalize_text u s in
  match detect_trailing_url n with
  | Some (main_text, trailing_url, potential_url) =>
      let available := m - get_weighted_length trailing_url - get_weighted_length ellipsis in
      let lead := rstrip (firstn (Z.to_nat (best_prefix main_text available)) main_text) in
      trailing_url = 32 :: potential_url /\
      (exists dropped, n = lead ++ dropped ++ trailing_url) /\
      (if available <=? 0 then t_text r = potential_url
       else match lead with
            | [] => t_text r = potential_url
            | _ => t_text r = lead ++ ellipsis ++ trailing_url
            end)
  | None =>
      let lead := rstrip (firstn (Z.to_nat (best_prefix n (m - get_weighted_length ellipsis))) n) in
      (exists dropped, n = lead ++ dropped) /\ t_text r = lead ++ ellipsis
  end.
Proof.
  intros r n. unfold r, truncate_to_limit. rewrite Hover. fold n.
  destruct (detect_trailing_url n) as [[[main_text trailing_url] potential_url]|] eqn:Ed.
  - destruct (detect_split u s _ _ _ Ed) as (Hsplit & Htr & Hsp & _).
    fold n in Hsplit. cbv zeta.
    destruct (rstrip_firstn_prefix
                (Z.to_nat (best_prefix main_text
                   (m - get_weighted_length trailing_url - get_weighted_length ellipsis)))
                main_text) as [dropped Hd].
    split; [exact Htr|]. split.
    + exists dropped. rewrite <- Hsplit, app_assoc, <- Hd. reflexivity.
    + destruct (_ <=? 0); [reflexivity|].
      destruct (rstrip (firstn _ main_text)) as [|x l]; [|reflexivity].
      cbn [t_text]. rewrite Htr. apply strip_after_space. exact Hsp.
  - cbv zeta.
    destruct (rstrip_firstn_prefix
                (Z.to_nat (best_prefix n (m - get_weighted_length ellipsis))) n)
      as [dropped Hd].
    split; [exists dropped; exact Hd|reflexivity].
Qed.

Lemma truncate_to_limit_outcomes_witness :
  t_text (truncate_to_limit ucd_excerpt two_kana_then_url 27 default_ellipsis)
    = example_url.
Proof.
  assert (Hv : is_valid (validate_tweet_length ucd_excerpt
                 (normalize_text ucd_excerpt two_kana_then_url) 27) = false)
    by (vm_compute; reflexivity).
  pose proof (truncate_to_limit_outcomes ucd_excerpt two_kana_then_url 27
                default_ellipsis Hv) as H.
  cbv zeta in H.
  assert (Ed : detect_trailing_url (normalize_text ucd_excerpt two_kana_then_url)
               = Some ([12354; 12354], 32 :: example_url, example_url))
    by (vm_compute; reflexivity).
  rewrite Ed in H. destruct H as (_ & _ & H).
  vm_compute in H. vm_compute. exact H.
Defined.

(** C9 (counterexample).  "ああ https://example.com" with limit 27: the text
    weighs 28, the URL with its space weighs 24 and the ellipsis 2, so
    [available] is 1 > 0; the first character weighs 2, the search keeps
    the empty prefix, and the result is the bare URL without ellipsis. *)
Lemma truncate_bare_url_with_room :
  detect_trailing_url (normalize_text ucd_excerpt two_kana_then_url)
    = Some ([12354; 12354], 32 :: example_url, example_url) /\
  27 - get_weighted_length (32 :: example_url) - get_weighted_length default_ellipsis = 1 /\
  safe_truncate_post ucd_excerpt two_kana_then_url 27 = example_url.
Proof. vm_compute. auto. Qed.


(** * Properties of the rest of the code *)

(** X1.  [calculate_weighted_length] counts every character of its input
    once: the weight-1 and weight-2 counts of the text with the URLs
    deleted, plus the characters of the URLs found, make up its length. *)
Theorem weight_counts_partition_text (s : text) :
  let info := calculate_weighted_length s in
  weight_1 info + weight_2 info + Z.of_nat (length (concat (findall_urls s)))
  = Z.of_nat (length s).
Proof.
  destruct s as [|c s']; [reflexivity|]. cbv zeta. unfold calculate_weighted_length.
  destruct (count_weights (sub_urls (c :: s')) 0 0) as [a b] eqn:E.
  cbn [weight_1 weight_2]. apply count_weights_total in E.
  destruct (url_scan_parts (length (c :: s')) (c :: s') (le_n _)) as [H _].
  unfold sub_urls, findall_urls in *. lia.
Qed.

(** X2.  Every URL returned by [URL_PATTERN.findall] is matched in full
    by the pattern: [https?://] followed by characters of [[^\s<>DQ]]. *)
Theorem findall_urls_whole_matches (s : text) :
  Forall (fun x => match_at x = Some (length x)) (findall_urls s).
Proof.
  apply Forall_forall. intros x Hx.
  exact (proj2 (url_scan_parts (length s) s (le_n _)) x Hx).
Qed.

(** X3.  No URL spans whitespace: the weighted length of [a + c + b] with
    [c] a whitespace character is that of [a], plus the weight of [c],
    plus that of [b], and the URLs found are those of [a] then of [b]. *)
Theorem weighted_length_whitespace_split (a b : text) (c : Z) (Hc : is_space c = true) :
  get_weighted_length (a ++ c :: b)
    = get_weighted_length a + get_character_weight c + get_weighted_length b /\
  findall_urls (a ++ c :: b) = findall_urls a ++ findall_urls b.
Proof.
  set (f := length (a ++ c :: b)).
  assert (Ha : (length a <= f)%nat) by (unfold f; rewrite length_app; lia).
  assert (Hb : (length b <= f)%nat) by (unfold f; rewrite length_app; simpl; lia).
  split.
  - rewrite (weight_by_scan f (a ++ c :: b) (le_n _)), (weight_by_scan f a Ha),
      (weight_by_scan f b Hb).
    rewrite (url_scan_app_space f a b c Hc (le_n _)). cbn [fst snd].
    rewrite sum_weights_app, length_app. cbn [sum_weights]. lia.
  - unfold findall_urls. fold f.
    rewrite (url_scan_app_space f a b c Hc (le_n _)). cbn [fst].
    rewrite (url_scan_fuel (length a) f a), (url_scan_fuel (length b) f b) by lia.
    reflexivity.
Qed.

Lemma weighted_length_whitespace_split_witness :
  get_weighted_length (example_url ++ 32 :: example_url) = 47 /\
  findall_urls (example_url ++ 32 :: example_url) = [example_url; example_url].
Proof.
  destruct (weighted_length_whitespace_split example_url example_url 32 eq_refl) as [H1 H2].
  split; [rewrite H1; vm_compute; reflexivity|rewrite H2; vm_compute; reflexivity].
Defined.

(** X4.  A text with no colon contains no URL; its weighted length is
    the sum of the weights of its characters. *)
Theorem weighted_length_without_colon (s : text) (Hs : ~ In 58 s) :
  findall_urls s = [] /\ get_weighted_length s = sum_weights s.
Proof.
  split.
  - unfold findall_urls. now rewrite url_scan_no_colon.
  - rewrite (weight_by_scan (length s) s (le_n _)), url_scan_no_colon by exact Hs.
    cbn [fst snd length]. lia.
Qed.

Lemma weighted_length_without_colon_witness :
  get_weighted_length ai_news = 10.
Proof.
  rewrite (proj2 (weighted_length_without_colon ai_news ltac:(vm_compute; intuition discriminate))).
  reflexivity.
Defined.

(** X5.  The binary search of [truncate_to_limit] finds the longest
    prefix within the target: for a target of at least 0 it returns a
    position [k] between 0 and [len(s)] with [s[:k]] of weighted length at
    most the target, and every longer prefix exceeds the target. *)
Theorem best_prefix_longest (s : text) (target : Z) (Ht : 0 <= target) :
  let k := best_prefix s target in
  (0 <= k <= Z.of_nat (length s)) /\
  get_weighted_length (firstn (Z.to_nat k) s) <= target /\
  Forall (fun j => target < get_weighted_length (firstn j s))
         (seq (S (Z.to_nat k)) (length s - Z.to_nat k)).
Proof.
  destruct (best_prefix_spec s target Ht) as (H1 & H2 & H3). cbv zeta.
  split; [exact H1|]. split; [exact H2|].
  apply Forall_forall. intros j Hj. apply in_seq in Hj.
  replace j with (Z.to_nat (Z.of_nat j)) by lia. apply H3. lia.
Qed.

Lemma best_prefix_longest_witness :
  let k := best_prefix (http_scheme ++ [97]) 10 in
  k = 7 /\ get_weighted_length (firstn (Z.to_nat k) (http_scheme ++ [97])) <= 10.
Proof.
  destruct (best_prefix_longest (http_scheme ++ [97]) 10 ltac:(lia)) as (_ & H & _).
  split; [vm_compute; reflexivity|exact H].
Defined.

(** X6.  When [truncate_to_limit] detects a trailing URL in a normalised
    text, the main text followed by the trailing URL is exactly the
    normalised text; the trailing URL is one space and the last word, which
    contains no whitespace and starts with a match of [URL_PATTERN]. *)
Theorem detect_trailing_url_splits_text (u : unicode_db)
  (s main_text trailing_url potential_url : text)
  (Hd : detect_trailing_url (normalize_text u s)
        = Some (main_text, trailing_url, potential_url)) :
  main_text ++ trailing_url = normalize_text u s /\
  trailing_url = 32 :: potential_url /\
  Forall (fun c => is_space c = false) potential_url /\
  exists k, match_at potential_url = Some k.
Proof.
  destruct (detect_split u s _ _ _ Hd) as (H1 & H2 & H3 & H4).
  split; [exact H1|]. split; [exact H2|]. split; [|exact H4].
  apply Forall_forall. exact H3.
Qed.

Lemma detect_trailing_url_splits_text_witness :
  [12354; 12354] ++ 32 :: example_url = normalize_text ucd_excerpt two_kana_then_url.
Proof.
  destruct (detect_trailing_url_splits_text ucd_excerpt two_kana_then_url
              [12354; 12354] (32 :: example_url) example_url
              ltac:(vm_compute; reflexivity)) as (H & _).
  exact H.
Defined.

(** X8.  When the text is over the limit, what [truncate_to_limit] keeps
    of it fits the budget: without a trailing URL the result is a prefix
    of the normalised text followed by the ellipsis, the prefix weighing
    at most [max_length] minus the ellipsis weight; with a trailing URL
    the result is the bare URL or a prefix of the normalised text, the
    ellipsis and the trailing URL, which ends the normalised text, the
    prefix weighing at most the available weight. *)
Theorem truncate_to_limit_lead_within_budget (u : unicode_db) (s : text) (m : Z)
  (ellipsis : text)
  (Hover : is_valid (validate_tweet_length u (normalize_text u s) m) = false) :
  let r := truncate_to_limit u s m ellipsis in
  let n := normalize_text u s in
  match detect_trailing_url n with
  | Some (main_text, trailing_url, potential_url) =>
      let available := m - get_weighted_length trailing_url - get_weighted_length ellipsis in
      t_text r = potential_url \/
      exists lead dropped,
        t_text r = lead ++ ellipsis ++ trailing_url /\
        n = lead ++ dropped ++ trailing_url /\
        get_weighted_length lead <= available
  | None =>
      exists lead dropped,
        t_text r = lead ++ ellipsis /\ n = lead ++ dropped /\
        (0 <= m - get_weighted_length ellipsis ->
         get_weighted_length lead <= m - get_weighted_length ellipsis)
  end.
Proof.
  intros r n. unfold r, truncate_to_limit. rewrite Hover. fold n.
  destruct (detect_trailing_url n) as [[[main_text trailing_url] potential_url]|] eqn:Ed.
  - destruct (detect_split u s _ _ _ Ed) as (Hsplit & Htr & _).
    cbv zeta.
    destruct (m - get_weighted_length trailing_url - get_weighted_length ellipsis <=? 0)
      eqn:Ea; [left; reflexivity|].
    apply Z.leb_gt in Ea.
    pose proof (best_lead_weight main_text
                  (m - get_weighted_length trailing_url - get_weighted_length ellipsis)
                  ltac:(lia)) as Hw.
    destruct (rstrip_firstn_prefix
                (Z.to_nat (best_prefix main_text
                   (m - get_weighted_length trailing_url - get_weighted_length ellipsis)))
                main_text) as [dropped Hd].
    destruct (rstrip (firstn _ main_text)) as [|x l] eqn:Er.
    + left. cbn [t_text]. rewrite Htr. apply strip_after_space.
      intros c Hc. destruct (detect_split u s _ _ _ Ed) as (_ & _ & H3 & _). now apply H3.
    + right. exists (x :: l), dropped. cbn [t_text].
      split; [reflexivity|]. split; [|exact Hw].
      fold n in Hsplit. rewrite <- Hsplit, Hd, <- app_assoc. reflexivity.
  - cbv zeta.
    destruct (rstrip_firstn_prefix
                (Z.to_nat (best_prefix n (m - get_weighted_length ellipsis))) n)
      as [dropped Hd].
    exists (rstrip (firstn (Z.to_nat (best_prefix n (m - get_weighted_length ellipsis))) n)),
      dropped.
    split; [reflexivity|]. split; [exact Hd|].
    intro Hm. apply best_lead_weight, Hm.
Qed.

Lemma truncate_to_limit_lead_within_budget_witness :
  is_valid (validate_tweet_length ucd_excerpt
              (normalize_text ucd_excerpt ascii_then_scheme_word) 280) = false /\
  exists lead dropped,
    t_text (truncate_to_limit ucd_excerpt ascii_then_scheme_word 280 default_ellipsis)
      = lead ++ default_ellipsis /\
    normalize_text ucd_excerpt ascii_then_scheme_word = lead ++ dropped /\
    get_weighted_length lead <= 278.
Proof.
  assert (Hv : is_valid (validate_tweet_length ucd_excerpt
                 (normalize_text ucd_excerpt ascii_then_scheme_word) 280) = false)
    by (vm_compute; reflexivity).
  split; [exact Hv|].
  pose proof (truncate_to_limit_lead_within_budget ucd_excerpt ascii_then_scheme_word 280
                default_ellipsis Hv) as H.
  cbv zeta in H.
  assert (Ed : detect_trailing_url (normalize_text ucd_excerpt ascii_then_scheme_word) = None)
    by (vm_compute; reflexivity).
  rewrite Ed in H. destruct H as (lead & dropped & H1 & H2 & H3).
  exists lead, dropped. split; [exact H1|]. split; [exact H2|].
  apply H3. vm_compute. discriminate.
Defined.

(** X9.  [remove_invisible_chars] works character by character: the
    replace loop and the category filter amount to one filter keeping the
    characters outside [INVISIBLE_CHARS] that are not of category C (or
    are one of [\n \r \t] and the space).  Hence it is idempotent and
    distributes over concatenation. *)
Theorem remove_invisible_chars_filter (u : unicode_db) (s : text) :
  remove_invisible_chars u s
    = filter (fun c => negb (existsb (Z.eqb c) INVISIBLE_CHARS) && keeps_char u c) s /\
  remove_invisible_chars u (remove_invisible_chars u s) = remove_invisible_chars u s /\
  (forall t, remove_invisible_chars u (s ++ t)
             = remove_invisible_chars u s ++ remove_invisible_chars u t).
Proof.
  split; [apply remove_invisible_filter|].
  rewrite !remove_invisible_filter. split.
  - rewrite filter_filter_Z. apply filter_ext. intro c. apply andb_diag.
  - intro t. rewrite !remove_invisible_filter. apply filter_app.
Qed.

(** X10.  What [normalize_text] leaves: every character of its result is
    the space or a character that is not whitespace, not in
    [INVISIBLE_CHARS] and not of category C. *)
Theorem normalize_text_clean_characters (u : unicode_db) (s : text) :
  Forall (fun c => c = 32 \/
                   (is_space c = false /\ ~ In c INVISIBLE_CHARS /\ category_is_C u c = false))
         (normalize_text u s).
Proof.
  apply Forall_forall. intros c Hc.
  destruct (normalize_text_cases u s) as [E|E]; rewrite E in Hc; [contradiction|].
  apply in_strip in Hc. destruct (in_collapse false c _ Hc) as [->|[Hin Hs]]; [now left|].
  right. apply in_remove_invisible in Hin as (_ & Hinv & Hk).
  split; [exact Hs|]. split; [exact Hinv|]. exact (keeps_char_not_space u c Hk Hs).
Qed.

(** X11.  The result of [normalize_text] has no whitespace at its start
    or end and no two adjacent whitespace characters. *)
Theorem normalize_text_trimmed (u : unicode_db) (s : text) :
  let n := normalize_text u s in
  (forall c t, n = c :: t -> is_space c = false) /\
  (forall t c, n = t ++ [c] -> is_space c = false) /\
  (forall a r x y, n = a ++ x :: y :: r -> is_space x = false \/ is_space y = false).
Proof.
  intro n. destruct (normalize_text_ws u s) as [Hok Hstrip]. fold n in Hok, Hstrip.
  split; [|split].
  - intros c t Ht. rewrite <- Hstrip in Ht. exact (strip_head _ _ _ Ht).
  - intros t c Ht. rewrite <- Hstrip in Ht. exact (strip_last _ _ _ Ht).
  - intros a r x y Ht. rewrite Ht in Hok. exact (ws_ok_adjacent false a r x y Hok).
Qed.

Lemma normalize_text_trimmed_witness :
  let n := normalize_text ucd_excerpt kana_run_then_url_line in
  is_space (hd 0 n) = false /\ is_space (last n 0) = false.
Proof.
  destruct (normalize_text_trimmed ucd_excerpt kana_run_then_url_line) as (H1 & H2 & _).
  split.
  - apply (H1 _ (tl (normalize_text ucd_excerpt kana_run_then_url_line))).
    vm_compute. reflexivity.
  - apply (H2 (removelast (normalize_text ucd_excerpt kana_run_then_url_line))).
    vm_compute. reflexivity.
Defined.

(** X12.  In the scripts' composition of a post, a link that is one whole
    match of [URL_PATTERN] is never dropped: the post is the paragraph, a
    newline and the link when that validates within 280, and otherwise
    the paragraph truncated to the weight 256 (280 minus 24 for the
    newline and the link), a newline and the link.  The fallback to the
    bare link is never taken. *)
Theorem compose_post_keeps_link (u : unicode_db) (paragraph url : text)
  (Hurl : match_at url = Some (length url)) :
  compose_post u paragraph url =
  if is_valid (validate_post_text u (paragraph ++ [10] ++ url) 280)
  then paragraph ++ [10] ++ url
  else safe_truncate_post u paragraph 256 ++ [10] ++ url.
Proof.
  unfold compose_post.
  destruct (is_valid (validate_post_text u (paragraph ++ [10] ++ url) 280)); [reflexivity|].
  rewrite (weight_newline_url url Hurl). reflexivity.
Qed.

Lemma compose_post_keeps_link_witness :
  compose_post ucd_excerpt (repeat_char 12354 200) example_url_x
    = safe_truncate_post ucd_excerpt (repeat_char 12354 200) 256 ++ [10] ++ example_url_x.
Proof.
  rewrite (compose_post_keeps_link ucd_excerpt (repeat_char 12354 200) example_url_x
             ltac:(vm_compute; reflexivity)).
  assert (Hv : is_valid (validate_post_text ucd_excerpt
                 (repeat_char 12354 200 ++ [10] ++ example_url_x) 280) = false)
    by (vm_compute; reflexivity).
  rewrite Hv. reflexivity.
Defined.

(** X13.  [the_batch.py] and [rundown.py] make at most one post per line
    of the model's answer that starts with ["# "]; each post is composed
    from a line [l] of the answer with [l.strip()] non-empty, not starting
    with [#] or [http], and its paragraph is [l.strip()]. *)
Theorem headline_posts_from_lines (u : unicode_db) (result url : text) :
  Nat.le (length (headline_posts u result url))
         (length (filter (is_prefix [35; 32]) (split_on 10 result))) /\
  Forall (fun post => exists l, In l (split_on 10 result) /\ is_paragraph_line l = true /\
                                post = compose_post u (strip l) url)
         (headline_posts u result url).
Proof.
  destruct (headline_paragraphs_spec (split_on 10 result)) as [H1 H2].
  unfold headline_posts. split; [now rewrite length_map|].
  apply Forall_map. eapply Forall_impl; [|exact H2].
  intros p (l & Hl & Hp & ->). exists l. auto.
Qed.

(** X14.  The markdown-link rewrite replaces a link [[t](v)] by [v]: for
    a text [a] with no [[], a link text [t] with no [\]] and no newline,
    and a target [v] with no [)] and no newline, the text
    [a + "[" + t + "](" + v + ")" + b] becomes [a + v] followed by the
    rewrite of [b]; a text without [[] is left unchanged. *)
Theorem replace_markdown_links_link (a t v b : text)
  (Ha : ~ In 91 a) (Ht10 : ~ In 10 t) (Ht93 : ~ In 93 t)
  (Hv10 : ~ In 10 v) (Hv41 : ~ In 41 v) :
  replace_markdown_links (a ++ [91] ++ t ++ [93; 40] ++ v ++ [41] ++ b)
    = a ++ v ++ replace_markdown_links b /\
  replace_markdown_links a = a.
Proof.
  split.
  - unfold replace_markdown_links.
    cbn [app]. rewrite replace_links_no_bracket by (auto; lia).
    rewrite length_app. cbn [length].
    rewrite length_app. cbn [length]. rewrite length_app. cbn [length].
    replace (length a + S (length t + S (S (length v + S (length b)))) - length a)%nat
      with (S (length t + S (S (length v + S (length b)))))%nat by lia.
    rewrite replace_links_go_cons. cbn [Z.eqb Pos.eqb].
    rewrite (link_tail_app t v b Ht10 Ht93 Hv10 Hv41).
    rewrite skipn_app_exact.
    replace (3 + length v)%nat with (S (S (length v + 1)))%nat by lia.
    cbn [skipn]. rewrite skipn_app_exact. cbn [skipn].
    rewrite (replace_links_fuel _ (length b) b) by lia. reflexivity.
  - unfold replace_markdown_links.
    pose proof (replace_links_no_bracket a [] (length a) Ha) as H.
    rewrite !app_nil_r, Nat.sub_diag in H. rewrite H by lia.
    apply app_nil_r.
Qed.

Lemma replace_markdown_links_link_witness :
  replace_markdown_links [97; 91; 116; 93; 40; 117; 41; 98] = [97; 117; 98].
Proof.
  refine (proj1 (replace_markdown_links_link [97] [116] [117] [98] _ _ _ _ _));
    simpl; intuition discriminate.
Defined.
